(** * arraysetops: sort-based set operations on 1-D integer arrays

    A shallow embedding of [Lib/sandbox/arraysetops/arraysetops.py].

    Arrays are [list Z]; the element type is the platform integer (a 64-bit
    two's-complement C long), so array subtraction wraps around.  Boolean
    arrays are [list bool], index arrays are [list nat].  Operations that can
    raise a Python exception return a [result].

    The array library the module calls is modelled in [Module scipy]:
    indexing and slicing follow Python (negative indices, clipped slice
    bounds, [IndexError] out of range), [sort] is the ascending
    rearrangement, and [argsort] is a parameter: any routine that returns a
    permutation of the positions listing the elements in ascending order
    (class [scipy.ArgSort]).  Stability of the argsort is a separate
    property, [scipy.Stable], assumed only where a result depends on it. *)

From Stdlib Require Import ZArith List Lia ZifyBool Permutation Sorted.
From stdpp Require Import base decidable option numbers list sorting.

Local Open Scope Z_scope.

(** ** Exceptions and the error monad *)

Inductive exn : Type :=
  | IndexError      (* index out of bounds *)
  | ValueError      (* shape mismatch *)
  | OverflowError.  (* Python integer does not fit the element type *)

Inductive result (A : Type) : Type :=
  | Ok (a : A)
  | Raise (e : exn).
Arguments Ok {A} a.
Arguments Raise {A} e.

Definition bind {A B} (r : result A) (k : A → result B) : result B :=
  match r with
  | Ok a => k a
  | Raise e => Raise e
  end.

Notation "x <- e ;; k" := (bind e (fun x => k))
  (at level 20, e at level 99, k at level 200).

(** ** Machine integers *)

Definition int_min : Z := - 2 ^ 63.
Definition int_max : Z := 2 ^ 63 - 1.

Definition int64 (x : Z) : Prop := int_min ≤ x ≤ int_max.

Definition int64b (x : Z) : bool := (int_min <=? x) && (x <=? int_max).

(** Two's-complement wrap-around of a mathematical integer. *)
Definition wrap (x : Z) : Z := (x - int_min) `mod` 2 ^ 64 + int_min.

(** Element subtraction of the integer dtype. *)
Definition wsub (x y : Z) : Z := wrap (x - y).

(** ** The array primitives used by the module

    These belong to the array library, not to the module; they follow the
    semantics the module's code and tests rely on. *)

Module scipy.

(** Python index normalisation: a negative index counts from the end. *)
Definition norm (len : nat) (i : Z) : Z :=
  if i <? 0 then i + Z.of_nat len else i.

(** Position addressed by [a[i]], or [IndexError]. *)
Definition index (len : nat) (i : Z) : result nat :=
  let j := norm len i in
  if (0 <=? j) && (j <? Z.of_nat len) then Ok (Z.to_nat j)
  else Raise IndexError.

(** A slice bound is normalised and then clipped to [0, len]. *)
Definition clip (len : nat) (i : Z) : nat :=
  Z.to_nat (Z.min (Z.of_nat len) (Z.max 0 (norm len i))).

(** [lo, n] for the slice [start:stop]: first position and length. *)
Definition bounds (len : nat) (start stop : option Z) : nat * nat :=
  let lo := from_option (clip len) 0%nat start in
  let hi := from_option (clip len) len stop in
  (lo, (hi - lo)%nat).

(** [a[start:stop]] *)
Definition getslice {A} (a : list A) (start stop : option Z) : list A :=
  let '(lo, n) := bounds (length a) start stop in
  firstn n (skipn lo a).

(** [a[i] = v] on an integer array; the Python integer [v] must fit. *)
Definition setitem (a : list Z) (i : Z) (v : Z) : result (list Z) :=
  k <- index (length a) i ;;
  if int64b v then Ok (<[k := v]> a) else Raise OverflowError.

(** [a[start:stop] = vals] for an array [vals] of the slice's shape. *)
Definition setslice {A} (a : list A) (start stop : option Z)
    (vals : list A) : result (list A) :=
  let '(lo, n) := bounds (length a) start stop in
  if (length vals =? n)%nat
  then Ok (firstn lo a ++ vals ++ skipn (lo + n) a)
  else Raise ValueError.

(** [scipy.empty(shape, dtype)]: a fresh array whose contents are
    unspecified; every slot is written before it is read. *)
Definition empty (n : nat) : list Z := replicate n 0.

(** [scipy.concatenate((a, b))] *)
Definition concatenate {A} (a b : list A) : list A := a ++ b.

(** [scipy.take(a, indices)] *)
Fixpoint take {A} (a : list A) (indices : list nat) : result (list A) :=
  match indices with
  | [] => Ok []
  | i :: indices' =>
      match a !! i with
      | Some x => xs <- take a indices' ;; Ok (x :: xs)
      | None => Raise IndexError
      end
  end.

(** [scipy.compress(condition, a)] is [take(a, nonzero(condition))]: a
    condition shorter than [a] truncates, a true flag past the end of [a]
    is out of bounds. *)
Fixpoint compress {A} (condition : list bool) (a : list A)
    : result (list A) :=
  match condition, a with
  | [], _ => Ok []
  | c :: cs, x :: xs =>
      r <- compress cs xs ;; Ok (if c then x :: r else r)
  | c :: cs, [] =>
      if c then Raise IndexError else compress cs []
  end.

(** Modelled from the spec: [scipy.sort] is not part of the module; it
    returns the ascending rearrangement of [a].  Every sorting routine
    returns this array (lemma [sort_unique]). *)
Definition sort (a : list Z) : list Z := merge_sort Z.le a.

(** Modelled from the spec: [scipy.argsort] is not part of the module; it
    returns a permutation of the positions of [a], a bijection on [0, n),
    that lists the elements in ascending order.  Which permutation is
    returned when [a] has equal elements (stable or unstable) is left to
    the sorting routine. *)
Class ArgSort : Type := {
  argsort : list Z → list nat;
  argsort_perm : ∀ a, argsort a ≡ₚ seq 0 (length a);
  argsort_sorted : ∀ a, Sorted Z.le ((λ i, nth i a 0) <$> argsort a)
}.

(** A stable [argsort] keeps equal elements in their original order. *)
Definition Stable (sorter : ArgSort) : Prop :=
  ∀ (a : list Z) (k1 k2 i1 i2 : nat),
    (k1 < k2)%nat →
    argsort a !! k1 = Some i1 → argsort a !! k2 = Some i2 →
    a !! i1 = a !! i2 → (i1 < i2)%nat.

End scipy.

(** ** Array expressions *)

(** Truth value of an optional argument: [None] and [0] are false. *)
Definition truthy (v : option Z) : bool :=
  match v with
  | Some x => negb (x =? 0)
  | None => false
  end.

(** [v] for an argument that was tested true. *)
Definition value (v : option Z) : Z :=
  match v with
  | Some x => x
  | None => 0
  end.

(** [x - y] on arrays of equal shape. *)
Definition sub (x y : list Z) : list Z := zip_with wsub x y.

(** [x == 0] and [x != 0] on an integer array. *)
Definition eq0 (x : list Z) : list bool := (λ d, d =? 0) <$> x.
Definition ne0 (x : list Z) : list bool := (λ d, negb (d =? 0)) <$> x.

(** [flag == 0] on a boolean array. *)
Definition beq0 (flag : list bool) : list bool := negb <$> flag.

(** [scipy.array(flag, dtype = int)] *)
Definition as_int (flag : list bool) : list Z := Z.b2z <$> flag.

(** ** The module *)

Definition ediff1d (ar1 : list Z) (toEnd toBegin : option Z)
    : result (list Z) :=
  let dar1 :=
    sub (scipy.getslice ar1 (Some 1) None)
        (scipy.getslice ar1 None (Some (-1))) in
  if truthy toEnd && truthy toBegin then
    let ed := scipy.empty (length ar1 + 1) in
    ed <- scipy.setitem ed 0 (value toBegin) ;;
    ed <- scipy.setitem ed (-1) (value toEnd) ;;
    scipy.setslice ed (Some 1) (Some (-1)) dar1
  else if truthy toEnd then
    let ed := scipy.empty (length ar1) in
    ed <- scipy.setitem ed (-1) (value toEnd) ;;
    scipy.setslice ed None (Some (-1)) dar1
  else if truthy toBegin then
    let ed := scipy.empty (length ar1) in
    ed <- scipy.setitem ed 0 (value toBegin) ;;
    scipy.setslice ed (Some 1) None dar1
  else
    Ok dar1.

(** [unique1d(ar1)]; [scipy.array(ar1).ravel()] is [ar1] for a 1-D array. *)
Definition unique1d (ar1 : list Z) : result (list Z) :=
  let ar := ar1 in
  let aux := scipy.sort ar in
  d <- ediff1d aux (Some 1) None ;;
  scipy.compress (ne0 d) aux.

(** [unique1d(ar1, retIndx = True)] *)
Definition unique1d_retIndx `{scipy.ArgSort} (ar1 : list Z)
    : result (list nat * list Z) :=
  let ar := ar1 in
  let perm := scipy.argsort ar in
  aux <- scipy.take ar perm ;;
  d <- ediff1d aux (Some 1) None ;;
  let flag := ne0 d in
  indx <- scipy.compress flag perm ;;
  vals <- scipy.compress flag aux ;;
  Ok (indx, vals).

Definition intersect1d (ar1 ar2 : list Z) : result (list Z) :=
  let aux := scipy.sort (scipy.concatenate ar1 ar2) in
  scipy.compress
    (eq0 (sub (scipy.getslice aux (Some 1) None)
              (scipy.getslice aux None (Some (-1)))))
    aux.

Definition intersect1d_nu (ar1 ar2 : list Z) : result (list Z) :=
  u1 <- unique1d ar1 ;;
  u2 <- unique1d ar2 ;;
  let aux := scipy.sort (scipy.concatenate u1 u2) in
  scipy.compress
    (eq0 (sub (scipy.getslice aux (Some 1) None)
              (scipy.getslice aux None (Some (-1)))))
    aux.

Definition setxor1d (ar1 ar2 : list Z) : result (list Z) :=
  let aux := scipy.sort (scipy.concatenate ar1 ar2) in
  d <- ediff1d aux (Some 1) (Some 1) ;;
  let flag := eq0 d in
  let flag := as_int flag in
  d2 <- ediff1d flag (Some 0) None ;;
  let flag2 := eq0 d2 in
  scipy.compress flag2 aux.

Definition setmember1d `{scipy.ArgSort} (ar1 ar2 : list Z)
    : result (list bool) :=
  let ar := scipy.concatenate ar1 ar2 in
  let perm := scipy.argsort ar in
  aux <- scipy.take ar perm ;;
  d <- ediff1d aux (Some 1) None ;;
  let flag := eq0 d in
  let indx := scipy.argsort (Z.of_nat <$> perm) in
  scipy.take flag
    (scipy.getslice indx None (Some (Z.of_nat (length ar1)))).

Definition union1d (ar1 ar2 : list Z) : result (list Z) :=
  unique1d (scipy.concatenate ar1 ar2).

Definition setdiff1d `{scipy.ArgSort} (ar1 ar2 : list Z)
    : result (list Z) :=
  aux <- setmember1d ar1 ar2 ;;
  scipy.compress (beq0 aux) ar1.

(** ** Functions used to state and prove the properties *)

(** [ar1[1:] - ar1[:-1]], by recursion on the array. *)
Fixpoint adjacent (l : list Z) : list Z :=
  match l with
  | [] => []
  | x :: l' =>
      match l' with
      | [] => []
      | y :: _ => wsub y x :: adjacent l'
      end
  end.

(** The elements of [a] at the true positions of [condition]. *)
Fixpoint select {A} (condition : list bool) (a : list A) : list A :=
  match condition, a with
  | c :: cs, x :: xs => if c then x :: select cs xs else select cs xs
  | _, _ => []
  end.

(** The last element of every maximal run of equal neighbours. *)
Fixpoint last_of_runs (l : list Z) : list Z :=
  match l with
  | [] => []
  | x :: l' =>
      match l' with
      | [] => [x]
      | y :: _ => if y =? x then last_of_runs l' else x :: last_of_runs l'
      end
  end.

(** The specification's partition of a sorted array into maximal runs of
    equal values, in order, each run as its value and its length. *)
Fixpoint runs (l : list Z) : list (Z * nat) :=
  match l with
  | [] => []
  | x :: l' =>
      match runs l' with
      | [] => [(x, 1%nat)]
      | (y, n) :: rs =>
          if y =? x then (x, S n) :: rs else (x, 1%nat) :: (y, n) :: rs
      end
  end.

(** Number of occurrences of [x] in [l]. *)
Definition count (x : Z) (l : list Z) : nat := count_occ Z.eq_dec l x.

(** Keep [x] when it agrees with its left neighbour exactly as much as
    with its right neighbour; [prev] tells whether the head of [l] equals
    the element before it. *)
Fixpoint xor_scan (prev : bool) (l : list Z) : list Z :=
  match l with
  | [] => []
  | x :: l' =>
      let next := match l' with [] => false | y :: _ => y =? x end in
      if eqb prev next then x :: xor_scan next l' else xor_scan next l'
  end.

(** Whether the head of [l] equals the element [p] before it. *)
Definition prev_flag (p : option Z) (l : list Z) : bool :=
  match p, l with
  | Some v, x :: _ => x =? v
  | _, _ => false
  end.

(** The sorted-order mask of [setmember1d]. *)
Definition member_mask (a b : list Z) : list bool :=
  eq0 (adjacent (scipy.sort (a ++ b)) ++ [1]).

(** For each original position, its place in sorted order. *)
Definition member_indx `{scipy.ArgSort} (a b : list Z) : list nat :=
  scipy.argsort (Z.of_nat <$> scipy.argsort (a ++ b)).

(** The first element of every pair of equal neighbours. *)
Fixpoint first_of_pairs (l : list Z) : list Z :=
  match l with
  | [] => []
  | x :: l' =>
      match l' with
      | [] => []
      | y :: _ => if y =? x then x :: first_of_pairs l' else first_of_pairs l'
      end
  end.

(** ** Two argsorts

    Sorting the pairs (value, position) lexicographically is the stable
    argsort ([kind = 'mergesort']): equal values stay in position order.
    Sorting them with ties in the opposite order is an argsort as well.
    The module does not choose between them. *)

Definition key_le (p q : Z * nat) : Prop :=
  p.1 < q.1 ∨ (p.1 = q.1 ∧ (p.2 ≤ q.2)%nat).

Global Instance key_le_dec : RelDecision key_le.
Proof. intros p q. unfold key_le. apply _. Defined.

Global Instance key_le_total : Total key_le.
Proof. intros [v i] [w j]. unfold key_le. simpl. lia. Qed.

Global Instance key_le_trans : Transitive key_le.
Proof. intros [v i] [w j] [u k]. unfold key_le. simpl. lia. Qed.

Definition enumerate (a : list Z) : list (Z * nat) :=
  zip a (seq 0 (length a)).

(** Ties in the opposite order: still an argsort, but not a stable one. *)
Definition key_rev (p q : Z * nat) : Prop :=
  p.1 < q.1 ∨ (p.1 = q.1 ∧ (q.2 ≤ p.2)%nat).

Global Instance key_rev_dec : RelDecision key_rev.
Proof. intros p q. unfold key_rev. apply _. Defined.

Global Instance key_rev_total : Total key_rev.
Proof. intros [v i] [w j]. unfold key_rev. simpl. lia. Qed.

(** Argsort by merge-sorting the (value, position) pairs along [R]. *)
Definition argsort_by (R : relation (Z * nat)) `{!RelDecision R}
    (a : list Z) : list nat :=
  (merge_sort R (enumerate a)).*2.

(** ** General facts about lists and sorted lists *)

Section list_facts.
Context {A : Type}.
Implicit Types l : list A.

Lemma StronglySorted_lookup (R : relation A) l i j x y :
  StronglySorted R l → (i < j)%nat →
  l !! i = Some x → l !! j = Some y → R x y.
Proof.
  intros Hs. revert i j.
  induction Hs as [|z l Hs IH Hall]; intros i j Hij Hi Hj.
  - by rewrite lookup_nil in Hi.
  - destruct j as [|j]; [lia|]. simpl in Hj.
    destruct i as [|i]; simpl in Hi.
    + inversion Hi; subst. rewrite Forall_forall in Hall.
      apply Hall. by eapply list_elem_of_lookup_2.
    + apply (IH i j); [lia|done..].
Qed.

Lemma Forall_sublist (P : A → Prop) l1 l2 :
  l1 `sublist_of` l2 → Forall P l2 → Forall P l1.
Proof.
  intros Hsub Hall. apply Forall_forall. intros x Hx.
  rewrite Forall_forall in Hall. eapply Hall, elem_of_sublist; eauto.
Qed.

Lemma StronglySorted_sublist (R : relation A) l1 l2 :
  l1 `sublist_of` l2 → StronglySorted R l2 → StronglySorted R l1.
Proof.
  induction 1 as [|x l1 l2 Hsub IH|x l1 l2 Hsub IH]; intros Hs.
  - constructor.
  - apply StronglySorted_cons in Hs as [Hall Hs].
    constructor; [by apply IH|]. by eapply Forall_sublist.
  - apply StronglySorted_cons in Hs as [_ Hs]. by apply IH.
Qed.

Lemma NoDup_lookup_ne l i j x y :
  NoDup l → i ≠ j → l !! i = Some x → l !! j = Some y → x ≠ y.
Proof.
  intros Hnd Hij Hi Hj ->. apply Hij. by eapply NoDup_lookup.
Qed.
End list_facts.

Lemma Sorted_le_lookup (l : list Z) i j x y :
  Sorted Z.le l → (i ≤ j)%nat → l !! i = Some x → l !! j = Some y → x ≤ y.
Proof.
  intros Hs Hij Hi Hj. destruct (decide (i = j)) as [->|Hne].
  - rewrite Hi in Hj. inversion Hj. lia.
  - apply (Sorted_StronglySorted _) in Hs.
    eapply (StronglySorted_lookup Z.le l i j); [done|lia|done..].
Qed.

Lemma StronglySorted_le_NoDup_lt (l : list Z) :
  StronglySorted Z.le l → NoDup l → StronglySorted Z.lt l.
Proof.
  induction 1 as [|x l Hs IH Hall]; intros Hnd; [constructor|].
  apply NoDup_cons in Hnd as [Hx Hnd]. constructor; [auto|].
  rewrite Forall_forall in Hall |- *. intros y Hy.
  assert (x ≠ y) by (by intros ->).
  specialize (Hall y Hy). lia.
Qed.

Lemma StronglySorted_lt_NoDup (l : list Z) : StronglySorted Z.lt l → NoDup l.
Proof.
  induction 1 as [|x l Hs IH Hall]; constructor; [|done].
  rewrite Forall_forall in Hall. intros Hx.
  specialize (Hall x Hx). lia.
Qed.

(** A strictly ascending list is determined by its set of elements. *)
Lemma StronglySorted_lt_ext (l1 l2 : list Z) :
  StronglySorted Z.lt l1 → StronglySorted Z.lt l2 →
  (∀ x, x ∈ l1 ↔ x ∈ l2) → l1 = l2.
Proof.
  intros H1 H2 Hext.
  apply (Sorted_unique Z.le).
  - apply StronglySorted_Sorted. eapply StronglySorted_fmap with (f := id) in H1.
    + by rewrite list_fmap_id in H1.
    + simpl. intros. lia.
  - apply StronglySorted_Sorted. eapply StronglySorted_fmap with (f := id) in H2.
    + by rewrite list_fmap_id in H2.
    + simpl. intros. lia.
  - apply NoDup_Permutation; auto using StronglySorted_lt_NoDup.
Qed.

(** ** Facts about [scipy.sort] *)

Lemma sort_Sorted a : Sorted Z.le (scipy.sort a).
Proof. apply (Sorted_merge_sort Z.le). Qed.

Lemma sort_Permutation a : scipy.sort a ≡ₚ a.
Proof. apply (merge_sort_Permutation Z.le). Qed.

(** Any ascending rearrangement of [a] is [scipy.sort a]. *)
Lemma sort_unique a s : Sorted Z.le s → s ≡ₚ a → s = scipy.sort a.
Proof.
  intros Hs Hp. apply (Sorted_unique Z.le); [done|apply sort_Sorted|].
  by rewrite Hp, sort_Permutation.
Qed.

Lemma sort_length a : length (scipy.sort a) = length a.
Proof. by rewrite sort_Permutation. Qed.

Lemma elem_of_sort a x : x ∈ scipy.sort a ↔ x ∈ a.
Proof. by rewrite sort_Permutation. Qed.

Lemma sort_nil_inv a : scipy.sort a = [] → a = [].
Proof.
  intros H. apply (f_equal length) in H. rewrite sort_length in H.
  by destruct a.
Qed.

(** ** Argsorts obtained by sorting (value, position) pairs *)

Lemma enumerate_snd a : (enumerate a).*2 = seq 0 (length a).
Proof. unfold enumerate. apply snd_zip. by rewrite length_seq. Qed.

Lemma enumerate_lookup a :
  Forall (λ p : Z * nat, a !! p.2 = Some p.1) (enumerate a).
Proof.
  apply Forall_lookup. intros i [v j] Hi. unfold enumerate, zip in Hi.
  apply lookup_zip_with_Some in Hi as (x & y & [= -> ->] & Hx & Hy).
  apply lookup_seq in Hy as [-> _]. done.
Qed.

Section argsort_by.
Context (R : relation (Z * nat)) `{!RelDecision R, !Total R}.
Hypothesis R_le : ∀ p q, R p q → p.1 ≤ q.1.

Lemma sorted_pairs_lookup a :
  Forall (λ p : Z * nat, a !! p.2 = Some p.1) (merge_sort R (enumerate a)).
Proof. rewrite (merge_sort_Permutation R). apply enumerate_lookup. Qed.

Lemma argsort_by_perm a : argsort_by R a ≡ₚ seq 0 (length a).
Proof.
  unfold argsort_by. by rewrite (merge_sort_Permutation R), enumerate_snd.
Qed.

Lemma argsort_by_values a :
  (λ i, nth i a 0) <$> argsort_by R a = (merge_sort R (enumerate a)).*1.
Proof.
  unfold argsort_by. rewrite <- list_fmap_compose.
  apply Forall_fmap_ext_1. eapply Forall_impl; [apply sorted_pairs_lookup|].
  intros [v i] H. simpl in *. by apply nth_lookup_Some.
Qed.

Lemma argsort_by_sorted a : Sorted Z.le ((λ i, nth i a 0) <$> argsort_by R a).
Proof.
  rewrite argsort_by_values.
  apply Sorted_fmap with (R1 := R); [|apply (Sorted_merge_sort R)].
  intros p q. apply R_le.
Qed.

Definition sorter_by : scipy.ArgSort := {|
  scipy.argsort := argsort_by R;
  scipy.argsort_perm := argsort_by_perm;
  scipy.argsort_sorted := argsort_by_sorted
|}.
End argsort_by.

Lemma key_le_fst p q : key_le p q → p.1 ≤ q.1.
Proof. unfold key_le. lia. Qed.

Lemma key_rev_fst p q : key_rev p q → p.1 ≤ q.1.
Proof. unfold key_rev. lia. Qed.

(** A stable argsort ([kind = 'mergesort']).  The module calls
    [scipy.argsort(ar)] without asking for it. *)
Definition mergesort : scipy.ArgSort := sorter_by key_le key_le_fst.

(** An argsort that reverses ties. *)
Definition reversing : scipy.ArgSort := sorter_by key_rev key_rev_fst.

Lemma mergesort_stable : scipy.Stable mergesort.
Proof.
  intros a k1 k2 i1 i2 Hk H1 H2 Heq.
  change (argsort_by key_le a !! k1 = Some i1) in H1.
  change (argsort_by key_le a !! k2 = Some i2) in H2.
  assert (i1 ≠ i2) as Hne.
  { eapply NoDup_lookup_ne; [|exact (Nat.lt_neq _ _ Hk)|done..].
    rewrite (argsort_by_perm key_le). apply NoDup_seq. }
  unfold argsort_by in H1, H2.
  apply list_lookup_fmap_Some in H1 as ([v1 j1] & Hj1 & Hp1).
  apply list_lookup_fmap_Some in H2 as ([v2 j2] & Hj2 & Hp2).
  simpl in Hj1, Hj2. subst i1 i2.
  pose proof (sorted_pairs_lookup key_le a) as Hall.
  rewrite Forall_lookup in Hall.
  pose proof (Hall _ _ Hp1) as Hv1. pose proof (Hall _ _ Hp2) as Hv2.
  cbn [fst snd] in Hv1, Hv2.
  assert (v1 = v2) as -> by congruence.
  assert (key_le (v2, j1) (v2, j2)) as Hle.
  { eapply (StronglySorted_lookup key_le); [|exact Hk|exact Hp1|exact Hp2].
    apply (StronglySorted_merge_sort key_le). }
  unfold key_le in Hle. cbn [fst snd] in Hle. lia.
Qed.

(** With the tie-reversing argsort a value of [a] that occurs in [b] is
    not flagged: [setmember1d] needs the stable order. *)
Example setmember1d_reversing :
  @setmember1d reversing [1] [1] = Ok [false] ∧
  @setmember1d mergesort [1] [1] = Ok [true].
Proof. vm_compute. auto. Qed.

(** ** The module's own tests *)

Example test_unique1d :
  unique1d [5; 7; 1; 2; 1; 5; 7] = Ok [1; 2; 5; 7].
Proof. vm_compute. reflexivity. Qed.

Example test_intersect1d :
  intersect1d [5; 7; 1; 2] [2; 4; 3; 1; 5] = Ok [1; 2; 5].
Proof. vm_compute. reflexivity. Qed.

Example test_intersect1d_nu :
  intersect1d_nu [5; 5; 7; 1; 2] [2; 1; 4; 3; 3; 1; 5] = Ok [1; 2; 5].
Proof. vm_compute. reflexivity. Qed.

Example test_setxor1d :
  setxor1d [5; 7; 1; 2] [2; 4; 3; 1; 5] = Ok [3; 4; 7] ∧
  setxor1d [1; 2; 3] [6; 5; 4] = Ok [1; 2; 3; 4; 5; 6] ∧
  setxor1d [1; 8; 2; 3] [6; 5; 4; 8] = Ok [1; 2; 3; 4; 5; 6].
Proof. vm_compute. auto. Qed.

Example test_union1d :
  union1d [5; 4; 7; 1; 2] [2; 4; 3; 3; 2; 1; 5] = Ok [1; 2; 3; 4; 5; 7].
Proof. vm_compute. reflexivity. Qed.

(** The expected values of the three tests that go through [argsort] are
    obtained when equal elements keep their order. *)
Example test_setmember1d :
  @setmember1d mergesort [5; 7; 1; 2] [2; 4; 3; 1; 5]
  = Ok [true; false; true; true] ∧
  @setmember1d mergesort [8; 7; 1; 2] [2; 4; 3; 1; 5]
  = Ok [false; false; true; true] ∧
  @setmember1d mergesort [4; 7; 1; 8] [2; 4; 3; 1; 5]
  = Ok [true; false; true; false].
Proof. vm_compute. auto. Qed.

Example test_setdiff1d :
  @setdiff1d mergesort [6; 5; 4; 7; 1; 2] [2; 4; 3; 3; 2; 1; 5] = Ok [6; 7].
Proof. vm_compute. reflexivity. Qed.

Example test_manyways :
  let a := [5; 7; 1; 2; 8] in
  let b := [9; 8; 2; 4; 3; 1; 5] in
  setxor1d a b
  = (aux1 <- intersect1d a b ;; aux2 <- union1d a b ;;
     @setdiff1d mergesort aux2 aux1).
Proof. vm_compute. reflexivity. Qed.

(** With ties in the opposite order the same tests get other values. *)
Example tests_with_reversed_ties :
  @setmember1d reversing [5; 7; 1; 2] [2; 4; 3; 1; 5]
  = Ok [false; false; false; false] ∧
  @setdiff1d reversing [6; 5; 4; 7; 1; 2] [2; 4; 3; 3; 2; 1; 5]
  = Ok [6; 5; 4; 7; 1; 2].
Proof. vm_compute. auto. Qed.

(** ** Indices and slices *)

Lemma index_nil i : scipy.index 0 i = Raise IndexError.
Proof.
  unfold scipy.index, scipy.norm.
  destruct (_ && _) eqn:Hb; [|done].
  apply andb_true_iff in Hb as [H1 H2].
  destruct (i <? 0) eqn:Hi; lia.
Qed.

Lemma index_first n : scipy.index (S n) 0 = Ok 0%nat.
Proof.
  unfold scipy.index, scipy.norm. change (0 <? 0) with false. cbv iota.
  destruct (_ && _) eqn:Hb; [done|]. lia.
Qed.

Lemma index_last n : scipy.index (S n) (-1) = Ok n.
Proof.
  unfold scipy.index, scipy.norm. change (-1 <? 0) with true. cbv iota.
  destruct (_ && _) eqn:Hb; [f_equal|]; lia.
Qed.

Lemma bounds_from_1 n : scipy.bounds n (Some 1) None = (min 1 n, (n - 1)%nat).
Proof.
  unfold scipy.bounds, scipy.clip, scipy.norm.
  destruct n; cbn -[Z.of_nat Nat.sub]; f_equal; lia.
Qed.

Lemma bounds_to_last n : scipy.bounds n None (Some (-1)) = (0%nat, (n - 1)%nat).
Proof.
  unfold scipy.bounds, scipy.clip, scipy.norm.
  destruct n; cbn -[Z.of_nat Nat.sub]; f_equal; lia.
Qed.

Lemma bounds_inner n :
  scipy.bounds n (Some 1) (Some (-1)) = (min 1 n, (n - 2)%nat).
Proof.
  unfold scipy.bounds, scipy.clip, scipy.norm.
  destruct n; cbn -[Z.of_nat Nat.sub]; f_equal; lia.
Qed.

Lemma bounds_to_len n k :
  scipy.bounds n None (Some (Z.of_nat k)) = (0%nat, min k n).
Proof.
  unfold scipy.bounds, scipy.clip, scipy.norm. cbn -[Z.of_nat Nat.min].
  destruct (Z.of_nat k <? 0) eqn:Hk; [lia|]. f_equal; lia.
Qed.

Lemma getslice_from_1 {A} (a : list A) :
  scipy.getslice a (Some 1) None = drop 1 a.
Proof.
  unfold scipy.getslice. rewrite bounds_from_1.
  destruct a as [|x a]; [done|]. simpl.
  rewrite Nat.sub_0_r. apply firstn_all.
Qed.

Lemma getslice_to_last {A} (a : list A) :
  scipy.getslice a None (Some (-1)) = take (length a - 1) a.
Proof. unfold scipy.getslice. by rewrite bounds_to_last. Qed.

Lemma getslice_to_len {A} (a : list A) k :
  scipy.getslice a None (Some (Z.of_nat k)) = take k a.
Proof.
  unfold scipy.getslice. rewrite bounds_to_len. simpl.
  destruct (decide (k ≤ length a)%nat).
  - by rewrite Nat.min_l.
  - rewrite Nat.min_r by lia. cbn [drop]. rewrite firstn_all.
    by rewrite take_ge by lia.
Qed.

(** ** Adjacent differences *)

Lemma sub_slices_adjacent l :
  sub (scipy.getslice l (Some 1) None) (scipy.getslice l None (Some (-1)))
  = adjacent l.
Proof.
  rewrite getslice_from_1, getslice_to_last. unfold sub.
  induction l as [|x [|y l] IH]; [done..|].
  change (adjacent (x :: y :: l)) with (wsub y x :: adjacent (y :: l)).
  rewrite <- IH. simpl. by rewrite !Nat.sub_0_r.
Qed.

Lemma adjacent_length l : length (adjacent l) = (length l - 1)%nat.
Proof.
  induction l as [|x [|y l] IH]; [done..|].
  change (adjacent (x :: y :: l)) with (wsub y x :: adjacent (y :: l)).
  simpl in *. lia.
Qed.

(** ** Writing single slots and slices *)

Lemma int64b_true v : int64 v → int64b v = true.
Proof. unfold int64, int64b. lia. Qed.

Lemma truthy_Some v : v ≠ 0 → truthy (Some v) = true.
Proof. intros Hv. unfold truthy. destruct (v =? 0) eqn:E; [lia|done]. Qed.

Lemma setitem_nil i v : scipy.setitem [] i v = Raise IndexError.
Proof. unfold scipy.setitem. cbn [length]. by rewrite index_nil. Qed.

Lemma setitem_first x a v :
  int64 v → scipy.setitem (x :: a) 0 v = Ok (v :: a).
Proof.
  intros Hv. unfold scipy.setitem. cbn [length].
  rewrite index_first. cbn [bind]. by rewrite int64b_true.
Qed.

Lemma setitem_last a x v :
  int64 v → scipy.setitem (a ++ [x]) (-1) v = Ok (a ++ [v]).
Proof.
  intros Hv. unfold scipy.setitem.
  rewrite length_app, Nat.add_1_r, index_last. cbn [bind].
  rewrite int64b_true by done. f_equal.
  replace (length a) with (length a + 0)%nat at 1 by lia.
  by rewrite insert_app_r.
Qed.

(** [ed[:-1] = vals] *)
Lemma setslice_to_last {A} (a : list A) x vals :
  length vals = length a →
  scipy.setslice (a ++ [x]) None (Some (-1)) vals = Ok (vals ++ [x]).
Proof.
  intros Hl. unfold scipy.setslice.
  rewrite bounds_to_last, length_app, Nat.add_1_r, Nat.sub_succ, Nat.sub_0_r.
  rewrite Hl, Nat.eqb_refl. cbn [firstn app Nat.add].
  by rewrite drop_app_length.
Qed.

(** [ed[1:] = vals] *)
Lemma setslice_from_1 {A} (a : list A) x vals :
  length vals = length a →
  scipy.setslice (x :: a) (Some 1) None vals = Ok (x :: vals).
Proof.
  intros Hl. unfold scipy.setslice.
  rewrite bounds_from_1. cbn [length Nat.min].
  rewrite Nat.sub_succ, Nat.sub_0_r, Hl, Nat.eqb_refl.
  cbn [firstn app Nat.add drop]. rewrite drop_all. by rewrite app_nil_r.
Qed.

(** [ed[1:-1] = vals] on an array of at least two slots *)
Lemma setslice_inner {A} (a : list A) x y vals :
  length vals = length a →
  scipy.setslice (x :: a ++ [y]) (Some 1) (Some (-1)) vals
  = Ok (x :: vals ++ [y]).
Proof.
  intros Hl. unfold scipy.setslice.
  rewrite bounds_inner. cbn [length Nat.min].
  rewrite length_app, Nat.add_1_r.
  replace (S (S (length a)) - 2)%nat with (length a) by lia.
  rewrite Hl, Nat.eqb_refl. cbn [firstn app Nat.add drop].
  by rewrite drop_app_length.
Qed.

(** [ed[1:-1] = []] on a one-slot array writes nothing *)
Lemma setslice_inner_1 {A} (x : A) :
  scipy.setslice [x] (Some 1) (Some (-1)) [] = Ok [x].
Proof. reflexivity. Qed.

(** ** What [ediff1d] returns *)

Lemma ediff1d_falsy ar1 toEnd toBegin :
  truthy toEnd = false → truthy toBegin = false →
  ediff1d ar1 toEnd toBegin = Ok (adjacent ar1).
Proof.
  intros H1 H2. unfold ediff1d. rewrite H1, H2. cbn [andb].
  by rewrite sub_slices_adjacent.
Qed.

Lemma ediff1d_toEnd_nil v toBegin :
  v ≠ 0 → truthy toBegin = false →
  ediff1d [] (Some v) toBegin = Raise IndexError.
Proof.
  intros Hv Hb. unfold ediff1d. rewrite Hb, truthy_Some by done.
  cbn [andb]. cbv iota. unfold scipy.empty. cbn [length replicate].
  by rewrite setitem_nil.
Qed.

Lemma ediff1d_toEnd ar1 v toBegin :
  v ≠ 0 → int64 v → truthy toBegin = false → ar1 ≠ [] →
  ediff1d ar1 (Some v) toBegin = Ok (adjacent ar1 ++ [v]).
Proof.
  intros Hv Hr Hb Hne. unfold ediff1d.
  rewrite Hb, truthy_Some, sub_slices_adjacent by done.
  cbn [andb value]. cbv iota.
  destruct ar1 as [|x l]; [done|]. unfold scipy.empty.
  cbn [length]. rewrite replicate_S_end, setitem_last by done. cbn [bind].
  apply setslice_to_last.
  rewrite length_replicate, adjacent_length. cbn [length]. lia.
Qed.

Lemma ediff1d_toBegin_nil toEnd w :
  truthy toEnd = false → w ≠ 0 →
  ediff1d [] toEnd (Some w) = Raise IndexError.
Proof.
  intros He Hw. unfold ediff1d. rewrite He, truthy_Some by done.
  cbn [andb]. cbv iota. unfold scipy.empty. cbn [length replicate].
  by rewrite setitem_nil.
Qed.

Lemma ediff1d_toBegin ar1 toEnd w :
  truthy toEnd = false → w ≠ 0 → int64 w → ar1 ≠ [] →
  ediff1d ar1 toEnd (Some w) = Ok (w :: adjacent ar1).
Proof.
  intros He Hw Hr Hne. unfold ediff1d.
  rewrite He, truthy_Some, sub_slices_adjacent by done.
  cbn [andb value]. cbv iota.
  destruct ar1 as [|x l]; [done|]. unfold scipy.empty.
  cbn [length]. rewrite replicate_S, setitem_first by done. cbn [bind].
  apply setslice_from_1.
  rewrite length_replicate, adjacent_length. cbn [length]. lia.
Qed.

Lemma ediff1d_both_nil v w :
  v ≠ 0 → int64 v → w ≠ 0 → int64 w →
  ediff1d [] (Some v) (Some w) = Ok [v].
Proof.
  intros Hv Hrv Hw Hrw. unfold ediff1d. rewrite !truthy_Some by done.
  cbn [andb value length Nat.add]. cbv iota.
  unfold scipy.empty. cbn [replicate].
  rewrite setitem_first by done. cbn [bind].
  change [w] with ([] ++ [w]). rewrite setitem_last by done. reflexivity.
Qed.

Lemma ediff1d_both ar1 v w :
  v ≠ 0 → int64 v → w ≠ 0 → int64 w → ar1 ≠ [] →
  ediff1d ar1 (Some v) (Some w) = Ok (w :: adjacent ar1 ++ [v]).
Proof.
  intros Hv Hrv Hw Hrw Hne. unfold ediff1d.
  rewrite !truthy_Some, sub_slices_adjacent by done.
  cbn [andb value]. cbv iota.
  destruct ar1 as [|x l]; [done|]. unfold scipy.empty.
  cbn [length]. rewrite Nat.add_1_r, replicate_S.
  rewrite setitem_first by done. cbn [bind].
  rewrite replicate_S_end, app_comm_cons, setitem_last by done. cbn [bind].
  rewrite <- app_comm_cons.
  apply setslice_inner.
  rewrite length_replicate, adjacent_length. cbn [length]. lia.
Qed.

(** ** Wrap-around subtraction detects equality *)

Lemma wsub_eq0 x y : int64 x → int64 y → (wsub y x =? 0) = (y =? x).
Proof.
  unfold int64, wsub, wrap, int_min, int_max. intros Hx Hy.
  change (2 ^ 63) with 9223372036854775808 in *.
  change (2 ^ 64) with 18446744073709551616 in *.
  destruct (y =? x) eqn:E.
  - apply Z.eqb_eq in E as ->. rewrite Z.sub_diag. reflexivity.
  - apply Z.eqb_neq in E. apply Z.eqb_neq. intros H.
    pose proof (Z.div_mod (y - x - - (9223372036854775808))
                  18446744073709551616 ltac:(lia)) as Hd.
    pose proof (Z.mod_pos_bound (y - x - - (9223372036854775808))
                  18446744073709551616 ltac:(lia)) as Hb.
    lia.
Qed.

(** ** [scipy.compress] and [scipy.take] as total functions *)

Section compress_take.
Context {A : Type}.
Implicit Types (a : list A) (c : list bool).

Lemma compress_select c a :
  (length c ≤ length a)%nat → scipy.compress c a = Ok (select c a).
Proof.
  revert a. induction c as [|f c IH]; intros [|x a] Hl; simpl in *;
    [done|done|lia|].
  rewrite IH by lia. by destruct f.
Qed.

Lemma select_sublist c a : select c a `sublist_of` a.
Proof.
  revert a. induction c as [|f c IH]; intros [|x a]; simpl;
    try apply sublist_nil_l.
  destruct f; [by apply sublist_skip|by apply sublist_cons].
Qed.

Lemma elem_of_select c a x :
  x ∈ select c a ↔ ∃ i, c !! i = Some true ∧ a !! i = Some x.
Proof.
  revert a. induction c as [|f c IH]; intros [|y a]; simpl.
  - rewrite elem_of_nil. split; [done|]. by intros (i & Hi & _).
  - rewrite elem_of_nil. split; [done|]. by intros (i & Hi & _).
  - rewrite elem_of_nil. split; [done|]. by intros (i & _ & Hi).
  - destruct f.
    + rewrite elem_of_cons, IH. split.
      * intros [->|(i & H1 & H2)]; [by exists 0%nat|by exists (S i)].
      * intros ([|i] & H1 & H2); simpl in *; [left; congruence|right; eauto].
    + rewrite IH. split.
      * intros (i & H1 & H2). by exists (S i).
      * intros ([|i] & H1 & H2); simpl in *; [done|eauto].
Qed.

Lemma take_fmap_nth a (d : A) (indices : list nat) :
  Forall (λ i, (i < length a)%nat) indices →
  scipy.take a indices = Ok ((λ i, nth i a d) <$> indices).
Proof.
  induction 1 as [|i indices Hi _ IH]; [done|]. simpl.
  apply lookup_lt_is_Some_2 in Hi as [x Hx].
  rewrite Hx, IH. simpl. by rewrite (nth_lookup_Some _ _ _ _ Hx).
Qed.

Lemma take_raises a (indices : list nat) i :
  i ∈ indices → (length a ≤ i)%nat → scipy.take a indices = Raise IndexError.
Proof.
  intros Hi Hge. induction indices as [|j indices IH]; [by inversion Hi|].
  simpl. destruct (a !! j) as [x|] eqn:Hj; [|done].
  apply elem_of_cons in Hi as [->|Hi].
  - apply lookup_lt_Some in Hj. lia.
  - by rewrite IH.
Qed.

Lemma fmap_nth_seq a (d : A) : (λ i, nth i a d) <$> seq 0 (length a) = a.
Proof.
  apply list_eq. intros i. rewrite list_lookup_fmap.
  destruct (a !! i) as [x|] eqn:Hx.
  - rewrite lookup_seq_lt by by eapply lookup_lt_Some.
    simpl. by rewrite (nth_lookup_Some _ _ _ _ Hx).
  - rewrite lookup_seq_ge; [done|]. by apply lookup_ge_None.
Qed.

Lemma fmap_nth_Permutation a (d : A) (perm : list nat) :
  perm ≡ₚ seq 0 (length a) → (λ i, nth i a d) <$> perm ≡ₚ a.
Proof. intros ->. by rewrite fmap_nth_seq. Qed.

Lemma Permutation_seq_lt (perm : list nat) n :
  perm ≡ₚ seq 0 n → Forall (λ i, (i < n)%nat) perm.
Proof.
  intros Hp. apply Forall_forall. intros i Hi. rewrite Hp in Hi.
  apply elem_of_seq in Hi. lia.
Qed.
End compress_take.

Lemma select_fmap {A B} (f : A → B) c (a : list A) :
  select c (f <$> a) = f <$> select c a.
Proof.
  revert a. induction c as [|b c IH]; intros [|x a]; simpl; [done..|].
  rewrite IH. by destruct b.
Qed.

(** ** Run boundaries of a sorted array *)

Lemma last_of_runs_cons2 x y l :
  last_of_runs (x :: y :: l)
  = if y =? x then last_of_runs (y :: l) else x :: last_of_runs (y :: l).
Proof. reflexivity. Qed.

Lemma adjacent_cons2 x y l :
  adjacent (x :: y :: l) = wsub y x :: adjacent (y :: l).
Proof. reflexivity. Qed.

(** The mask [ediff1d(aux, 1) != 0] keeps the last element of each run. *)
Lemma select_ne0_last_of_runs l :
  Forall int64 l → l ≠ [] →
  select (ne0 (adjacent l ++ [1])) l = last_of_runs l.
Proof.
  intros Hr _. induction l as [|x [|y l] IH]; [done..|].
  apply Forall_cons in Hr as [Hx Hr].
  pose proof Hr as [Hy _]%Forall_cons.
  rewrite adjacent_cons2, last_of_runs_cons2. unfold ne0 in *.
  rewrite <- app_comm_cons, fmap_cons. cbn [select].
  rewrite wsub_eq0, IH by done. by destruct (y =? x).
Qed.

Lemma ne0_mask_length l :
  l ≠ [] → length (ne0 (adjacent l ++ [1])) = length l.
Proof.
  intros Hl. unfold ne0.
  rewrite length_fmap, length_app, adjacent_length. simpl.
  destruct l; [done|]. simpl. lia.
Qed.

Lemma elem_of_last_of_runs l x : x ∈ last_of_runs l ↔ x ∈ l.
Proof.
  induction l as [|y [|z l] IH]; [done..|].
  rewrite last_of_runs_cons2. destruct (z =? y) eqn:E.
  - apply Z.eqb_eq in E as ->. rewrite IH, !elem_of_cons. tauto.
  - rewrite elem_of_cons, IH, !elem_of_cons. tauto.
Qed.

Lemma last_of_runs_sublist l : last_of_runs l `sublist_of` l.
Proof.
  induction l as [|y [|z l] IH]; [done..|].
  rewrite last_of_runs_cons2. destruct (z =? y).
  - by apply sublist_cons.
  - by apply sublist_skip.
Qed.

Lemma last_of_runs_StronglySorted l :
  Sorted Z.le l → StronglySorted Z.lt (last_of_runs l).
Proof.
  intros Hs%(Sorted_StronglySorted _).
  induction l as [|y [|z l] IH].
  - constructor.
  - repeat constructor.
  - apply StronglySorted_cons in Hs as [Hall Hs].
    rewrite last_of_runs_cons2. destruct (z =? y) eqn:E; [by apply IH|].
    apply Z.eqb_neq in E. constructor; [by apply IH|].
    apply Forall_forall. intros w Hw.
    apply (proj1 (elem_of_last_of_runs _ _)) in Hw.
    rewrite Forall_forall in Hall.
    pose proof (Hall z ltac:(left)) as Hz.
    apply StronglySorted_cons in Hs as [Hall' _].
    rewrite Forall_forall in Hall'.
    apply elem_of_cons in Hw as [->|Hw]; [lia|].
    specialize (Hall' w Hw). lia.
Qed.

(** ** Deduplication *)

(** What [unique1d] computes on a non-empty array. *)
Lemma unique1d_last_of_runs a :
  Forall int64 a → a ≠ [] →
  unique1d a = Ok (last_of_runs (scipy.sort a)).
Proof.
  intros Hr Hne. unfold unique1d.
  assert (scipy.sort a ≠ []) as Hs by (intros ?%sort_nil_inv; done).
  assert (Forall int64 (scipy.sort a)) as Hrs by (by rewrite sort_Permutation).
  rewrite ediff1d_toEnd; [|done|unfold int64, int_min, int_max; lia|done..].
  cbn [bind]. rewrite compress_select by (by rewrite ne0_mask_length).
  by rewrite select_ne0_last_of_runs.
Qed.

Lemma unique1d_nil : unique1d [] = Raise IndexError.
Proof. reflexivity. Qed.

(** On every non-empty array [unique1d] returns a strictly ascending array
    with the same elements as its argument and no more of them. *)
Lemma unique1d_nonempty_spec a :
  Forall int64 a → a ≠ [] →
  ∃ u, unique1d a = Ok u ∧
       StronglySorted Z.lt u ∧ NoDup u ∧
       (∀ x, x ∈ u ↔ x ∈ a) ∧
       (length u ≤ length a)%nat.
Proof.
  intros Hr Hne. eexists. split; [by apply unique1d_last_of_runs|].
  assert (StronglySorted Z.lt (last_of_runs (scipy.sort a))) as Hs
    by apply last_of_runs_StronglySorted, sort_Sorted.
  repeat split.
  - done.
  - by apply StronglySorted_lt_NoDup.
  - intros Hx. by apply elem_of_sort, (proj1 (elem_of_last_of_runs _ _)).
  - intros Hx. by apply (proj2 (elem_of_last_of_runs _ _)), elem_of_sort.
  - rewrite <- (sort_length a). apply sublist_length, last_of_runs_sublist.
Qed.

(** ** Deduplication with indices *)

Section argsort_facts.
Context `{sorter : scipy.ArgSort}.

Lemma argsort_lt a : Forall (λ i, (i < length a)%nat) (scipy.argsort a).
Proof. apply Permutation_seq_lt, scipy.argsort_perm. Qed.

Lemma argsort_length a : length (scipy.argsort a) = length a.
Proof. by rewrite scipy.argsort_perm, length_seq. Qed.

Lemma argsort_NoDup a : NoDup (scipy.argsort a).
Proof. rewrite scipy.argsort_perm. apply NoDup_seq. Qed.

Lemma argsort_nil : scipy.argsort [] = [].
Proof. apply Permutation_nil_r. apply (scipy.argsort_perm []). Qed.

(** Reading [a] through its argsort gives the sorted array. *)
Lemma argsort_values a :
  (λ i, nth i a 0) <$> scipy.argsort a = scipy.sort a.
Proof.
  apply sort_unique; [apply scipy.argsort_sorted|].
  apply fmap_nth_Permutation, scipy.argsort_perm.
Qed.

Lemma take_argsort a : scipy.take a (scipy.argsort a) = Ok (scipy.sort a).
Proof.
  rewrite (take_fmap_nth a 0) by apply argsort_lt. by rewrite argsort_values.
Qed.

Lemma unique1d_retIndx_nil : unique1d_retIndx [] = Raise IndexError.
Proof. unfold unique1d_retIndx. by rewrite argsort_nil. Qed.

(** On every non-empty array the index variant returns positions of [a]
    whose elements are, in order, the values [unique1d] returns. *)
Lemma unique1d_retIndx_nonempty_spec a :
  Forall int64 a → a ≠ [] →
  ∃ indx vals,
    unique1d_retIndx a = Ok (indx, vals) ∧
    length indx = length vals ∧
    (∀ k i, indx !! k = Some i → ∃ v, vals !! k = Some v ∧ a !! i = Some v) ∧
    scipy.take a indx = Ok vals ∧
    unique1d a = Ok vals.
Proof.
  intros Hr Hne. unfold unique1d_retIndx. rewrite take_argsort. cbn [bind].
  assert (scipy.sort a ≠ []) as Hs by (intros ?%sort_nil_inv; done).
  assert (Forall int64 (scipy.sort a)) as Hrs
    by (by rewrite sort_Permutation).
  rewrite ediff1d_toEnd; [|done|unfold int64, int_min, int_max; lia|done..].
  cbn [bind]. set (flag := ne0 (adjacent (scipy.sort a) ++ [1])).
  assert (length flag = length a) as Hfl.
  { unfold flag. by rewrite ne0_mask_length, sort_length. }
  rewrite !compress_select by (rewrite ?argsort_length, ?sort_length; lia).
  cbn [bind]. eexists _, _. split; [reflexivity|].
  assert (select flag (scipy.sort a)
          = (λ i, nth i a 0) <$> select flag (scipy.argsort a)) as Hv.
  { by rewrite <- argsort_values, select_fmap. }
  assert (Forall (λ i, (i < length a)%nat) (select flag (scipy.argsort a)))
    as Hlt.
  { eapply Forall_sublist; [apply select_sublist|apply argsort_lt]. }
  repeat split.
  - by rewrite Hv, length_fmap.
  - intros k i Hk. exists (nth i a 0). rewrite Hv, list_lookup_fmap, Hk.
    split; [done|]. rewrite Forall_lookup in Hlt.
    apply Hlt in Hk. apply lookup_lt_is_Some_2 in Hk as [v Hi].
    by rewrite (nth_lookup_Some _ _ _ _ Hi).
  - by rewrite (take_fmap_nth a 0), Hv.
  - rewrite unique1d_last_of_runs by done. f_equal.
    symmetry. by apply select_ne0_last_of_runs.
Qed.
End argsort_facts.

(** ** Symmetric difference *)

Lemma int64_b2z b : int64 (Z.b2z b).
Proof. unfold int64, int_min, int_max. destruct b; simpl; lia. Qed.

Lemma b2z_eqb b1 b2 : (Z.b2z b2 =? Z.b2z b1) = eqb b1 b2.
Proof. by destruct b1, b2. Qed.

Lemma xor_scan_cons2 prev x y l :
  xor_scan prev (x :: y :: l)
  = if eqb prev (y =? x) then x :: xor_scan (y =? x) (y :: l)
    else xor_scan (y =? x) (y :: l).
Proof. reflexivity. Qed.

(** The two mask passes of [setxor1d], by recursion on the sorted array. *)
Lemma select_xor_scan prev l :
  Forall int64 l →
  select (eq0 (adjacent (as_int (prev :: eq0 (adjacent l ++ [1]))))) l
  = xor_scan prev l.
Proof.
  intros Hr. revert prev. induction l as [|x [|y l] IH]; intros prev.
  - by destruct prev.
  - cbn. rewrite wsub_eq0 by (try apply int64_b2z; apply (int64_b2z false)).
    by destruct prev.
  - apply Forall_cons in Hr as [Hx Hr].
    pose proof Hr as [Hy _]%Forall_cons.
    rewrite adjacent_cons2. unfold eq0, as_int in *.
    rewrite <- app_comm_cons, !fmap_cons, adjacent_cons2, fmap_cons.
    rewrite xor_scan_cons2. cbn [select].
    rewrite (wsub_eq0 (Z.b2z prev)) by apply int64_b2z.
    rewrite b2z_eqb, (wsub_eq0 x y) by done.
    rewrite <- (IH Hr (y =? x)). rewrite !fmap_cons. done.
Qed.

Lemma xor_mask_length prev l :
  l ≠ [] →
  length (eq0 (adjacent (as_int (prev :: eq0 (adjacent l ++ [1]))))) = length l.
Proof.
  intros Hl. unfold eq0, as_int.
  rewrite length_fmap, adjacent_length, length_fmap. cbn [length].
  rewrite length_fmap, length_app, adjacent_length. cbn [length].
  destruct l; [done|]. cbn [length]. lia.
Qed.

(** What [setxor1d] computes. *)
Lemma setxor1d_xor_scan a b :
  Forall int64 a → Forall int64 b →
  setxor1d a b = Ok (xor_scan false (scipy.sort (a ++ b))).
Proof.
  intros Ha Hb. unfold setxor1d, scipy.concatenate.
  destruct (decide (a ++ b = [])) as [Hnil|Hne].
  { rewrite Hnil. reflexivity. }
  assert (scipy.sort (a ++ b) ≠ []) as Hs by (intros ?%sort_nil_inv; done).
  assert (Forall int64 (scipy.sort (a ++ b))) as Hrs.
  { rewrite sort_Permutation. by apply Forall_app. }
  assert (int64 1) by (unfold int64, int_min, int_max; lia).
  rewrite ediff1d_both by done. cbn [bind].
  rewrite ediff1d_falsy by done. cbn [bind].
  change (eq0 (1 :: ?l)) with (false :: eq0 l).
  rewrite compress_select by (by rewrite xor_mask_length).
  by rewrite select_xor_scan.
Qed.

(** ** Counting occurrences *)

Lemma count_nil x : count x [] = 0%nat.
Proof. reflexivity. Qed.

Lemma count_cons x y l :
  count x (y :: l) = ((if decide (y = x) then 1 else 0) + count x l)%nat.
Proof.
  unfold count. simpl.
  destruct (Z.eq_dec y x); case_decide; done.
Qed.

Lemma count_app x l1 l2 : count x (l1 ++ l2) = (count x l1 + count x l2)%nat.
Proof. apply count_occ_app. Qed.

Lemma count_pos x l : (0 < count x l)%nat ↔ x ∈ l.
Proof.
  unfold count. rewrite list_elem_of_In, (count_occ_In Z.eq_dec). lia.
Qed.

Lemma count_zero x l : count x l = 0%nat ↔ x ∉ l.
Proof. rewrite <- count_pos. lia. Qed.

Lemma count_Permutation x l1 l2 : l1 ≡ₚ l2 → count x l1 = count x l2.
Proof. intros Hp. by apply (Permutation_count_occ Z.eq_dec). Qed.

Lemma count_NoDup x l : NoDup l → (count x l ≤ 1)%nat.
Proof.
  intros Hnd%NoDup_ListNoDup. apply (proj1 (NoDup_count_occ Z.eq_dec l) Hnd).
Qed.

Lemma filter_ext_elem_of (P1 P2 : Z → Prop)
    `{!∀ x, Decision (P1 x), !∀ x, Decision (P2 x)} (l : list Z) :
  (∀ x, x ∈ l → P1 x ↔ P2 x) → filter P1 l = filter P2 l.
Proof.
  induction l as [|a l IH]; intros Hiff; [done|].
  assert (filter P1 l = filter P2 l) as Hl.
  { apply IH. intros x Hx. apply Hiff. by right. }
  destruct (decide (P1 a)) as [H1|H1].
  - rewrite !filter_cons_True; [by rewrite Hl|by apply Hiff; [left|]|done].
  - rewrite !filter_cons_False; [done| |done].
    intros H2. apply H1, Hiff; [by left|done].
Qed.

(** In an ascending array, a later copy of the head is its neighbour. *)
Lemma sorted_next_elem_of x l :
  StronglySorted Z.le (x :: l) →
  match l with [] => false | y :: _ => y =? x end = true ↔ x ∈ l.
Proof.
  intros [Hall Hs]%StronglySorted_cons. destruct l as [|y l].
  - split; [done|]. by intros ?%elem_of_nil.
  - rewrite Z.eqb_eq. split; [intros ->; by left|]. intros Hx.
    apply Forall_cons in Hall as [Hxy _].
    apply StronglySorted_cons in Hs as [Hall _].
    rewrite Forall_forall in Hall.
    apply elem_of_cons in Hx as [->|Hx]; [done|].
    specialize (Hall x Hx). lia.
Qed.

(** ** The scan of [setxor1d] keeps the values that occur once *)

Lemma xor_scan_filter l : ∀ p,
  StronglySorted Z.le (option_list p ++ l) →
  (∀ x, count x (option_list p ++ l) ≤ 2)%nat →
  xor_scan (prev_flag p l) l
  = filter (λ x, count x (option_list p ++ l) = 1%nat) l.
Proof.
  induction l as [|x l IH]; intros p Hs Hc; [done|].
  assert (StronglySorted Z.le (x :: l)) as Hs'.
  { destruct p; [by apply StronglySorted_cons in Hs as [_ ?]|done]. }
  assert (∀ y, count y (option_list p ++ x :: l)
               = ((if decide (p = Some y) then 1 else 0) + count y (x :: l))%nat)
    as Hcp.
  { intros y. destruct p as [v|].
    - change (option_list (Some v) ++ x :: l) with (v :: x :: l).
      rewrite (count_cons y v). repeat case_decide; congruence.
    - change (option_list None ++ x :: l) with (x :: l). by case_decide. }
  assert (∀ y, count y (x :: l) ≤ 2)%nat as Hc'.
  { intros y. specialize (Hc y). rewrite Hcp in Hc. lia. }
  assert (∀ y, y ∈ l → p ≠ Some y) as Hpl.
  { intros y Hy ->. change (option_list (Some y) ++ x :: l)
      with (y :: x :: l) in Hs, Hc.
    apply StronglySorted_cons in Hs as [Hall _].
    apply StronglySorted_cons in Hs' as [Hall' _].
    apply Forall_cons in Hall as [Hyx _]. rewrite Forall_forall in Hall'.
    specialize (Hall' y Hy). assert (x = y) as -> by lia.
    specialize (Hc y). rewrite !count_cons in Hc.
    apply count_pos in Hy. repeat case_decide; try done; lia. }
  change (xor_scan (prev_flag p (x :: l)) (x :: l))
    with (if eqb (prev_flag p (x :: l)) (prev_flag (Some x) l)
          then x :: xor_scan (prev_flag (Some x) l) l
          else xor_scan (prev_flag (Some x) l) l).
  rewrite (IH (Some x) Hs' Hc').
  change (option_list (Some x) ++ l) with (x :: l).
  assert (filter (λ y, count y (option_list p ++ x :: l) = 1%nat) l
          = filter (λ y, count y (x :: l) = 1%nat) l) as Hext.
  { apply filter_ext_elem_of. intros y Hy. rewrite Hcp.
    specialize (Hpl y Hy). by case_decide. }
  assert (prev_flag (Some x) l = true ↔ x ∈ l) as Hnext
    by apply (sorted_next_elem_of x l Hs').
  assert (prev_flag p (x :: l) = true ↔ p = Some x) as Hprev.
  { destruct p as [v|]; cbn [prev_flag]; [|done].
    rewrite Z.eqb_eq. split; congruence. }
  pose proof (Hc x) as Hcx. rewrite Hcp in Hcx.
  pose proof (count_pos x l) as Hpos.
  pose proof (count_cons x x l) as Hxx. rewrite decide_True in Hxx by done.
  destruct (prev_flag p (x :: l)) eqn:E1, (prev_flag (Some x) l) eqn:E2;
    cbn [eqb].
  - exfalso. destruct Hprev as [Hprev _], Hnext as [Hnext _].
    specialize (Hprev eq_refl). specialize (Hnext eq_refl).
    apply Hpos in Hnext. rewrite decide_True in Hcx by done. lia.
  - rewrite filter_cons_False; [by rewrite Hext|]. rewrite Hcp.
    destruct Hprev as [Hprev _]. rewrite decide_True by auto. lia.
  - rewrite filter_cons_False; [by rewrite Hext|]. rewrite Hcp.
    destruct Hnext as [Hnext _]. specialize (Hnext eq_refl).
    apply Hpos in Hnext. case_decide; lia.
  - rewrite filter_cons_True; [by rewrite Hext|]. rewrite Hcp.
    assert (p ≠ Some x) as Hp by (intros Hp; by apply Hprev in Hp).
    assert (x ∉ l) as Hx by (intros Hx; by apply Hnext in Hx).
    apply count_zero in Hx. rewrite decide_False by done. lia.
Qed.

Lemma count_sublist x l1 l2 :
  l1 `sublist_of` l2 → (count x l1 ≤ count x l2)%nat.
Proof.
  induction 1 as [|y l1 l2 _ IH|y l1 l2 _ IH]; [done|..];
    rewrite ?count_cons; lia.
Qed.

Lemma count_NoDup_elem_of x l :
  NoDup l → count x l = if decide (x ∈ l) then 1%nat else 0%nat.
Proof.
  intros Hnd%(count_NoDup x). case_decide as Hx.
  - apply count_pos in Hx. lia.
  - by apply count_zero.
Qed.

Lemma count_sort x a : count x (scipy.sort a) = count x a.
Proof. apply count_Permutation, sort_Permutation. Qed.

Lemma NoDup_count_le_1 l : (∀ x, count x l ≤ 1)%nat → NoDup l.
Proof.
  intros H. apply NoDup_ListNoDup, (NoDup_count_occ Z.eq_dec). exact H.
Qed.

Lemma sort_StronglySorted a : StronglySorted Z.le (scipy.sort a).
Proof. apply (Sorted_StronglySorted _), sort_Sorted. Qed.

(** The values that occur exactly once in an ascending array form a
    strictly ascending array. *)
Lemma filter_once_StronglySorted l :
  StronglySorted Z.le l →
  StronglySorted Z.lt (filter (λ x, count x l = 1%nat) l).
Proof.
  intros Hs. apply StronglySorted_le_NoDup_lt.
  - eapply StronglySorted_sublist; [apply sublist_filter; apply _|done].
  - apply NoDup_count_le_1. intros x.
    destruct (decide (count x l = 1%nat)) as [H1|H1].
    + rewrite <- H1. apply count_sublist, sublist_filter; apply _.
    + assert (x ∉ filter (λ x, count x l = 1%nat) l) as Hx.
      { rewrite list_elem_of_filter. tauto. }
      apply count_zero in Hx. lia.
Qed.

(** ** Membership *)

(** The mask [ediff1d(aux, 1) == 0]: position [k] is flagged when the next
    element equals it; the last position is never flagged. *)
Lemma eq0_mask_lookup l k :
  Forall int64 l → (k < length l)%nat →
  eq0 (adjacent l ++ [1]) !! k = Some (bool_decide (l !! S k = l !! k)).
Proof.
  intros Hr. revert k. induction l as [|x [|y l] IH]; intros k Hk.
  - simpl in Hk. lia.
  - simpl in Hk. by assert (k = 0%nat) as -> by lia.
  - apply Forall_cons in Hr as [Hx Hr].
    pose proof Hr as [Hy _]%Forall_cons.
    rewrite adjacent_cons2. unfold eq0 in *.
    rewrite <- app_comm_cons, fmap_cons. destruct k as [|k].
    + cbn [lookup list_lookup]. rewrite wsub_eq0 by done. f_equal.
      destruct (y =? x) eqn:E.
      * apply Z.eqb_eq in E as ->. by rewrite bool_decide_eq_true_2.
      * apply Z.eqb_neq in E. rewrite bool_decide_eq_false_2; [done|].
        intros [= ?]. done.
    + cbn [lookup list_lookup]. apply (IH Hr). simpl in *. lia.
Qed.

Lemma eq0_mask_length l :
  l ≠ [] → length (eq0 (adjacent l ++ [1])) = length l.
Proof.
  intros Hl. unfold eq0.
  rewrite length_fmap, length_app, adjacent_length. simpl.
  destruct l; [done|]. simpl. lia.
Qed.

Lemma Sorted_of_nat_seq j n : Sorted Z.le (Z.of_nat <$> seq j n).
Proof.
  revert j. induction n as [|n IH]; intros j; [constructor|].
  cbn [seq fmap list_fmap]. constructor; [apply IH|].
  destruct n; constructor. lia.
Qed.

Section inverse_permutation.
Context `{sorter : scipy.ArgSort}.

(** The argsort of a permutation is its inverse. *)
Lemma argsort_inverse (perm : list nat) n i :
  perm ≡ₚ seq 0 n → (i < n)%nat →
  ∃ k, scipy.argsort (Z.of_nat <$> perm) !! i = Some k ∧
       perm !! k = Some i.
Proof.
  intros Hp Hi. set (pz := Z.of_nat <$> perm).
  assert (scipy.sort pz = Z.of_nat <$> seq 0 n) as Hsort.
  { symmetry. apply sort_unique; [apply Sorted_of_nat_seq|].
    unfold pz. by rewrite Hp. }
  assert (length pz = n) as Hlen.
  { unfold pz. by rewrite length_fmap, Hp, length_seq. }
  pose proof (argsort_values pz) as Hv. rewrite Hsort in Hv.
  apply (f_equal (λ l, l !! i)) in Hv.
  rewrite !list_lookup_fmap, lookup_seq_lt in Hv by done.
  destruct (scipy.argsort pz !! i) as [k|] eqn:Hk; [|done].
  exists k. split; [done|]. simpl in Hv.
  pose proof (argsort_lt pz) as Hlt. rewrite Forall_lookup in Hlt.
  apply Hlt in Hk. rewrite Hlen in Hk.
  assert (k < length perm)%nat as Hk'.
  { by rewrite Hp, length_seq. }
  apply lookup_lt_is_Some_2 in Hk' as [p Hp'].
  assert (pz !! k = Some (Z.of_nat p)) as Hz.
  { unfold pz. by rewrite list_lookup_fmap, Hp'. }
  rewrite (nth_lookup_Some _ _ _ _ Hz) in Hv.
  rewrite Hp'. f_equal. injection Hv. lia.
Qed.
End inverse_permutation.

Section setmember1d_facts.
Context `{sorter : scipy.ArgSort}.
Implicit Types a b : list Z.

Lemma setmember1d_nil_nil : setmember1d [] [] = Raise IndexError.
Proof.
  unfold setmember1d, scipy.concatenate. cbn [app]. by rewrite argsort_nil.
Qed.

(** What [setmember1d] computes when [a] and [b] are not both empty. *)
Lemma setmember1d_value a b :
  Forall int64 (a ++ b) → a ++ b ≠ [] →
  setmember1d a b
  = Ok ((λ k, nth k (member_mask a b) false)
          <$> take (length a) (member_indx a b)).
Proof.
  intros Hr Hne. unfold setmember1d, scipy.concatenate.
  rewrite take_argsort. cbn [bind].
  assert (scipy.sort (a ++ b) ≠ []) as Hs by (intros ?%sort_nil_inv; done).
  assert (Forall int64 (scipy.sort (a ++ b))) as Hrs
    by (by rewrite sort_Permutation).
  rewrite ediff1d_toEnd; [|done|unfold int64, int_min, int_max; lia|done..].
  cbn [bind]. rewrite getslice_to_len.
  apply take_fmap_nth.
  eapply Forall_sublist; [apply sublist_take|].
  fold (member_mask a b). unfold member_mask.
  rewrite eq0_mask_length, sort_length by done.
  eapply Forall_impl; [apply argsort_lt|]. intros k Hk. simpl in Hk.
  by rewrite length_fmap, argsort_length in Hk.
Qed.

Lemma setmember1d_length a b f :
  setmember1d a b = Ok f → length f = length a.
Proof.
  destruct (decide (a ++ b = [])) as [Hnil|Hne].
  - apply app_eq_nil in Hnil as [-> ->]. by rewrite setmember1d_nil_nil.
  - unfold setmember1d, scipy.concatenate.
    rewrite take_argsort. cbn [bind].
    destruct (ediff1d _ _ _) as [d|e]; cbn [bind]; [|done].
    rewrite getslice_to_len. intros Hf.
    assert (∀ (fl : list bool) idx r,
               scipy.take fl idx = Ok r → length r = length idx) as Htl.
    { intros fl idx. induction idx as [|j idx IH]; intros r; simpl.
      - by intros [= <-].
      - destruct (fl !! j); [|done].
        destruct (scipy.take fl idx) as [r'|]; [|done]. simpl.
        intros [= <-]. simpl. f_equal. by apply IH. }
    apply Htl in Hf. rewrite Hf, length_take.
    unfold member_indx.
    rewrite argsort_length, length_fmap, argsort_length, length_app. lia.
Qed.

(** With a stable argsort, position [i] of [a] is flagged exactly when
    its value occurs again later in the concatenation of [a] and [b]. *)
Lemma setmember1d_lookup a b i x :
  scipy.Stable sorter → Forall int64 (a ++ b) → a !! i = Some x →
  ∃ f, setmember1d a b = Ok f ∧ length f = length a ∧
       (f !! i = Some true ↔ ∃ j, (i < j)%nat ∧ (a ++ b) !! j = Some x).
Proof.
  intros Hst Hr Hi.
  assert (a ++ b ≠ []) as Hne by (by destruct a).
  pose proof (setmember1d_value a b Hr Hne) as Hval.
  eexists. split; [exact Hval|]. split; [by eapply setmember1d_length|].
  set (ar := a ++ b) in *. set (perm := scipy.argsort ar).
  assert (i < length a)%nat as Hia by (by eapply lookup_lt_Some).
  assert (ar !! i = Some x) as Hari by (by apply lookup_app_l_Some).
  assert (i < length ar)%nat as Hin by (by eapply lookup_lt_Some).
  destruct (argsort_inverse perm (length ar) i) as (k & Hk & Hpk);
    [apply scipy.argsort_perm|done|].
  fold perm in Hk.
  assert (∀ k' j, perm !! k' = Some j →
            scipy.sort ar !! k' = ar !! j ∧ is_Some (ar !! j)) as Haux.
  { intros k' j Hk'. rewrite <- argsort_values, list_lookup_fmap.
    fold perm. rewrite Hk'. simpl.
    pose proof (argsort_lt ar) as Hlt. rewrite Forall_lookup in Hlt.
    apply Hlt in Hk'. apply lookup_lt_is_Some_2 in Hk' as [y Hy].
    rewrite Hy. split; [|by eexists]. f_equal. by apply nth_lookup_Some. }
  assert (k < length (scipy.sort ar))%nat as Hkn.
  { rewrite sort_length, <- (argsort_length ar). by eapply lookup_lt_Some. }
  assert (Forall int64 (scipy.sort ar)) as Hrs
    by (by rewrite sort_Permutation).
  pose proof (eq0_mask_lookup _ k Hrs Hkn) as Hflag.
  fold (member_mask a b) in Hflag.
  rewrite list_lookup_fmap, lookup_take_lt by done.
  unfold member_indx. fold ar perm. rewrite Hk. simpl.
  rewrite (nth_lookup_Some _ _ _ _ Hflag).
  destruct (Haux k i Hpk) as [Hauxk _]. rewrite Hauxk, Hari.
  split.
  - intros [= Hb]. apply bool_decide_eq_true in Hb.
    assert (S k < length perm)%nat as HSk.
    { unfold perm. rewrite argsort_length, <- (sort_length ar).
      by eapply lookup_lt_Some. }
    apply lookup_lt_is_Some_2 in HSk as [j Hj].
    destruct (Haux (S k) j Hj) as [Hauxj _].
    exists j. split; [|congruence].
    apply (Hst ar k (S k) i j); [lia|done..|congruence].
  - intros (j & Hij & Hj). f_equal. apply bool_decide_eq_true.
    assert (j ∈ perm) as Hjp.
    { unfold perm. rewrite scipy.argsort_perm. apply elem_of_seq.
      apply lookup_lt_Some in Hj. lia. }
    apply list_elem_of_lookup in Hjp as [k' Hk'].
    assert (k < k')%nat as Hkk'.
    { destruct (Nat.lt_trichotomy k k') as [?|[->|Hlt]]; [done|..].
      - rewrite Hpk in Hk'. injection Hk'. lia.
      - pose proof (Hst ar k' k j i Hlt Hk' Hpk ltac:(congruence)). lia. }
    destruct (Haux k' j Hk') as [Hauxk' _].
    assert (S k < length (scipy.sort ar))%nat as HSk.
    { apply Nat.le_lt_trans with k'; [lia|].
      eapply lookup_lt_Some. by rewrite Hauxk'. }
    apply lookup_lt_is_Some_2 in HSk as [y Hy]. rewrite Hy. f_equal.
    pose proof (sort_Sorted ar) as Hsorted.
    assert (x ≤ y).
    { eapply (Sorted_le_lookup _ k (S k)); [done|lia| |done].
      by rewrite Hauxk. }
    assert (y ≤ x).
    { eapply (Sorted_le_lookup _ (S k) k'); [done|lia|done|].
      by rewrite Hauxk'. }
    lia.
Qed.
End setmember1d_facts.

(** ** Difference *)

Lemma last_occurrence (l : list Z) x :
  x ∈ l → ∃ i, l !! i = Some x ∧ ∀ j, (i < j)%nat → l !! j ≠ Some x.
Proof.
  induction l as [|y l IH]; intros Hx; [by apply elem_of_nil in Hx|].
  destruct (decide (x ∈ l)) as [Hl|Hl].
  - destruct (IH Hl) as (i & Hi & Hlast). exists (S i). split; [done|].
    intros [|j] Hj; [lia|]. simpl. apply Hlast. lia.
  - apply elem_of_cons in Hx as [->|Hx]; [|done]. exists 0%nat.
    split; [done|]. intros [|j] Hj; [lia|]. simpl. intros Hy.
    apply Hl. by eapply list_elem_of_lookup_2.
Qed.

Section setdiff1d_facts.
Context `{sorter : scipy.ArgSort}.
Implicit Types a b : list Z.

Lemma setdiff1d_nil_nil : setdiff1d [] [] = Raise IndexError.
Proof. unfold setdiff1d. by rewrite setmember1d_nil_nil. Qed.

(** With a stable argsort and arrays that are not both empty,
    [setdiff1d] keeps a subsequence of [a] whose values are those of [a]
    that do not occur in [b]. *)
Lemma setdiff1d_stable_spec a b :
  scipy.Stable sorter → Forall int64 (a ++ b) → a ++ b ≠ [] →
  ∃ r, setdiff1d a b = Ok r ∧
       r `sublist_of` a ∧
       (∀ x, x ∈ r ↔ x ∈ a ∧ x ∉ b).
Proof.
  intros Hst Hr Hne. unfold setdiff1d.
  pose proof (setmember1d_value a b Hr Hne) as Hval.
  pose proof (setmember1d_length a b _ Hval) as Hlen.
  rewrite Hval. cbn [bind]. set (f := _ <$> _) in *.
  rewrite compress_select by (unfold beq0; rewrite length_fmap; lia).
  eexists. split; [done|]. split; [apply select_sublist|].
  assert (∀ i x, a !! i = Some x →
            (f !! i = Some true ↔
             ∃ j, (i < j)%nat ∧ (a ++ b) !! j = Some x)) as Hflag.
  { intros i x Hi.
    destruct (setmember1d_lookup a b i x Hst Hr Hi) as (f' & Hf' & _ & Hiff).
    rewrite Hval in Hf'. by injection Hf' as <-. }
  intros x. rewrite elem_of_select. unfold beq0. split.
  - intros (i & Hfi & Hi). rewrite list_lookup_fmap in Hfi.
    destruct (f !! i) as [[|]|] eqn:Hf; try done.
    split; [by eapply list_elem_of_lookup_2|]. intros Hb.
    apply list_elem_of_lookup in Hb as [j Hj].
    assert (f !! i = Some true); [|congruence].
    apply (Hflag i x Hi). exists (length a + j)%nat.
    split; [apply lookup_lt_Some in Hi; lia|].
    by rewrite lookup_app_r, Nat.add_comm, Nat.add_sub by lia.
  - intros [Ha Hb]. destruct (last_occurrence a x Ha) as (i & Hi & Hlast).
    exists i. split; [|done]. rewrite list_lookup_fmap.
    assert (i < length f)%nat as Hif.
    { rewrite Hlen. by eapply lookup_lt_Some. }
    apply lookup_lt_is_Some_2 in Hif as [c Hc]. rewrite Hc.
    destruct c; [|done]. exfalso.
    apply (Hflag i x Hi) in Hc as (j & Hij & Hj).
    apply lookup_app_Some in Hj as [Hj|[_ Hj]].
    + by apply (Hlast j Hij).
    + apply Hb. by eapply list_elem_of_lookup_2.
Qed.
End setdiff1d_facts.

(** ** Intersection of duplicate-free arrays *)

Lemma first_of_pairs_cons2 x y l :
  first_of_pairs (x :: y :: l)
  = if y =? x then x :: first_of_pairs (y :: l) else first_of_pairs (y :: l).
Proof. reflexivity. Qed.

Lemma select_eq0_first_of_pairs l :
  Forall int64 l → select (eq0 (adjacent l)) l = first_of_pairs l.
Proof.
  intros Hr. induction l as [|x [|y l] IH]; [done..|].
  apply Forall_cons in Hr as [Hx Hr].
  pose proof Hr as [Hy _]%Forall_cons.
  rewrite adjacent_cons2, first_of_pairs_cons2. unfold eq0 in *.
  rewrite fmap_cons. cbn [select].
  rewrite wsub_eq0, IH by done. done.
Qed.

Lemma first_of_pairs_sublist l : first_of_pairs l `sublist_of` l.
Proof.
  induction l as [|y [|z l] IH]; [done|apply sublist_nil_l|].
  rewrite first_of_pairs_cons2. destruct (z =? y).
  - by apply sublist_skip.
  - by apply sublist_cons.
Qed.

Lemma elem_of_first_of_pairs l x :
  StronglySorted Z.le l → x ∈ first_of_pairs l ↔ (2 ≤ count x l)%nat.
Proof.
  induction l as [|y [|z l] IH]; intros Hs.
  - cbn [first_of_pairs]. rewrite elem_of_nil, count_nil. lia.
  - cbn [first_of_pairs]. rewrite elem_of_nil, count_cons, count_nil.
    case_decide; lia.
  - pose proof (sorted_next_elem_of y (z :: l) Hs) as Hnext.
    apply StronglySorted_cons in Hs as [_ Hs]. specialize (IH Hs).
    rewrite first_of_pairs_cons2, (count_cons x y).
    destruct (z =? y) eqn:E.
    + destruct Hnext as [Hnext _]. specialize (Hnext eq_refl).
      apply count_pos in Hnext. rewrite elem_of_cons, IH.
      case_decide; [subst; lia|]. split; [intros [->|?]; [done|lia]|lia].
    + assert (y ∉ z :: l) as Hy.
      { intros Hy. apply Hnext in Hy. done. }
      apply count_zero in Hy. rewrite IH. case_decide; [subst; lia|lia].
Qed.

Lemma intersect1d_value a b :
  Forall int64 (a ++ b) →
  intersect1d a b = Ok (first_of_pairs (scipy.sort (a ++ b))).
Proof.
  intros Hr. unfold intersect1d, scipy.concatenate.
  rewrite sub_slices_adjacent.
  rewrite compress_select
    by (unfold eq0; rewrite length_fmap, adjacent_length; lia).
  rewrite select_eq0_first_of_pairs; [done|]. by rewrite sort_Permutation.
Qed.

(** For duplicate-free arrays [intersect1d] lists the common values. *)
Lemma intersect1d_unique_spec a b :
  Forall int64 (a ++ b) → NoDup a → NoDup b →
  ∃ r, intersect1d a b = Ok r ∧
       r `sublist_of` scipy.sort (a ++ b) ∧
       (∀ x, x ∈ r ↔ x ∈ a ∧ x ∈ b).
Proof.
  intros Hr Ha Hb. eexists. split; [by apply intersect1d_value|].
  split; [apply first_of_pairs_sublist|]. intros x.
  rewrite elem_of_first_of_pairs by apply sort_StronglySorted.
  rewrite count_sort, count_app, !count_NoDup_elem_of by done.
  repeat case_decide; split; try lia; tauto.
Qed.

(** ** Symmetric difference of duplicate-free arrays *)

Lemma count_concat_le_2 a b x :
  NoDup a → NoDup b → (count x (scipy.sort (a ++ b)) ≤ 2)%nat.
Proof.
  intros Ha Hb. rewrite count_sort, count_app.
  pose proof (count_NoDup x a Ha). pose proof (count_NoDup x b Hb). lia.
Qed.

Lemma count_concat_once a b x :
  NoDup a → NoDup b →
  count x (scipy.sort (a ++ b)) = 1%nat
  ↔ (x ∈ a ∧ x ∉ b) ∨ ((x ∉ a) ∧ x ∈ b).
Proof.
  intros Ha Hb. rewrite count_sort, count_app, !count_NoDup_elem_of by done.
  repeat case_decide; split; try lia; tauto.
Qed.

Lemma setxor1d_unique_value a b :
  Forall int64 a → Forall int64 b → NoDup a → NoDup b →
  setxor1d a b
  = Ok (filter (λ x, count x (scipy.sort (a ++ b)) = 1%nat)
          (scipy.sort (a ++ b))).
Proof.
  intros Hra Hrb Ha Hb. rewrite setxor1d_xor_scan by done. f_equal.
  apply (xor_scan_filter (scipy.sort (a ++ b)) None).
  - apply sort_StronglySorted.
  - intros x. by apply count_concat_le_2.
Qed.

(** [setxor1d] does not depend on the order of its arguments. *)
Lemma setxor1d_comm a b :
  Forall int64 a → Forall int64 b → setxor1d a b = setxor1d b a.
Proof.
  intros Ha Hb. rewrite !setxor1d_xor_scan by done. do 2 f_equal.
  apply sort_unique; [apply sort_Sorted|].
  rewrite sort_Permutation. apply Permutation_app_comm.
Qed.

(** ** Membership in duplicate-free first arguments *)

Section setmember1d_unique.
Context `{sorter : scipy.ArgSort}.
Implicit Types a b : list Z.

(** When [a] has no duplicates, a later occurrence lies in [b]. *)
Lemma later_occurrence_in_b a b i x :
  NoDup a → a !! i = Some x →
  (∃ j, (i < j)%nat ∧ (a ++ b) !! j = Some x) ↔ x ∈ b.
Proof.
  intros Hnd Hi. split.
  - intros (j & Hij & Hj). apply lookup_app_Some in Hj as [Hj|[_ Hj]].
    + assert (i = j) by (by eapply NoDup_lookup). lia.
    + by eapply list_elem_of_lookup_2.
  - intros [j Hj]%list_elem_of_lookup. exists (length a + j)%nat.
    split; [apply lookup_lt_Some in Hi; lia|].
    by rewrite lookup_app_r, Nat.add_comm, Nat.add_sub by lia.
Qed.

Lemma setmember1d_stable_unique_lookup a b i x :
  scipy.Stable sorter → Forall int64 (a ++ b) → NoDup a →
  a !! i = Some x →
  ∃ f, setmember1d a b = Ok f ∧ length f = length a ∧
       (f !! i = Some true ↔ x ∈ b).
Proof.
  intros Hst Hr Hnd Hi.
  destruct (setmember1d_lookup a b i x Hst Hr Hi) as (f & Hf & Hlen & Hiff).
  exists f. split; [done|]. split; [done|].
  by rewrite Hiff, later_occurrence_in_b.
Qed.

(** A stable argsort puts the position of [a]'s occurrence of a value
    before the positions of [b]'s occurrences of it. *)
Lemma stable_a_before_b a b i j x :
  scipy.Stable sorter → a !! i = Some x → b !! j = Some x →
  ∃ ki kj,
    member_indx a b !! i = Some ki ∧
    member_indx a b !! (length a + j)%nat = Some kj ∧
    (ki < kj)%nat.
Proof.
  intros Hst Hi Hj. unfold member_indx.
  set (ar := a ++ b). set (perm := scipy.argsort ar).
  assert (ar !! i = Some x) as Hari by (by apply lookup_app_l_Some).
  assert (ar !! (length a + j)%nat = Some x) as Harj.
  { unfold ar. by rewrite lookup_app_r, Nat.add_comm, Nat.add_sub by lia. }
  destruct (argsort_inverse perm (length ar) i) as (ki & Hki & Hpi);
    [apply scipy.argsort_perm|by eapply lookup_lt_Some|].
  destruct (argsort_inverse perm (length ar) (length a + j))
    as (kj & Hkj & Hpj);
    [apply scipy.argsort_perm|by eapply lookup_lt_Some|].
  exists ki, kj. split; [done|]. split; [done|].
  apply lookup_lt_Some in Hi.
  destruct (Nat.lt_trichotomy ki kj) as [?|[->|Hlt]]; [done|..].
  - rewrite Hpi in Hpj. injection Hpj. lia.
  - pose proof (Hst ar kj ki _ _ Hlt Hpj Hpi ltac:(congruence)). lia.
Qed.
End setmember1d_unique.

(** ** Union, and symmetric difference computed the other way *)

Lemma union1d_nil_nil : union1d [] [] = Raise IndexError.
Proof. reflexivity. Qed.

Lemma intersect1d_nu_nil_nil : intersect1d_nu [] [] = Raise IndexError.
Proof. reflexivity. Qed.

Lemma union1d_nonempty_spec a b :
  Forall int64 (a ++ b) → a ++ b ≠ [] →
  ∃ u, union1d a b = Ok u ∧ StronglySorted Z.lt u ∧
       (∀ x, x ∈ u ↔ x ∈ a ∨ x ∈ b).
Proof.
  intros Hr Hne. unfold union1d, scipy.concatenate.
  destruct (unique1d_nonempty_spec (a ++ b) Hr Hne)
    as (u & Hu & Hs & _ & Hel & _).
  exists u. split; [done|]. split; [done|].
  intros x. by rewrite Hel, elem_of_app.
Qed.

Section manyways.
Context `{sorter : scipy.ArgSort}.

(** For duplicate-free arrays that are not both empty, and a stable
    argsort, the symmetric difference is the union without the
    intersection, as [test_manyways] checks on one pair of arrays. *)
Lemma setxor1d_manyways_nonempty a b :
  scipy.Stable sorter →
  Forall int64 a → Forall int64 b → NoDup a → NoDup b → a ++ b ≠ [] →
  setxor1d a b
  = (aux1 <- intersect1d a b ;; aux2 <- union1d a b ;; setdiff1d aux2 aux1).
Proof.
  intros Hst Hra Hrb Ha Hb Hne.
  assert (Forall int64 (a ++ b)) as Hr by (by apply Forall_app).
  rewrite setxor1d_unique_value by done.
  destruct (intersect1d_unique_spec a b Hr Ha Hb) as (I & HI & HIsub & HIel).
  destruct (union1d_nonempty_spec a b Hr Hne) as (U & HU & HUs & HUel).
  rewrite HI, HU. cbn [bind].
  assert (∀ x, x ∈ a ++ b → int64 x) as Hrx by (by apply Forall_forall).
  assert (Forall int64 (U ++ I)) as HrUI.
  { apply Forall_forall. intros x [Hx|Hx]%elem_of_app; apply Hrx.
    - apply elem_of_app. by apply HUel.
    - apply elem_of_app. left. by apply HIel. }
  assert (U ++ I ≠ []) as HneUI.
  { destruct a as [|y a].
    - destruct b as [|y b]; [done|].
      assert (y ∈ U) as Hy by (apply HUel; right; left).
      destruct U; [by apply elem_of_nil in Hy|done].
    - assert (y ∈ U) as Hy by (apply HUel; left; left).
      destruct U; [by apply elem_of_nil in Hy|done]. }
  destruct (setdiff1d_stable_spec U I Hst HrUI HneUI)
    as (r & Hr' & Hrsub & Hrel).
  rewrite Hr'. f_equal. apply StronglySorted_lt_ext.
  - apply filter_once_StronglySorted, sort_StronglySorted.
  - by eapply StronglySorted_sublist.
  - intros x. rewrite list_elem_of_filter, count_concat_once by done.
    rewrite Hrel, HUel, HIel, elem_of_sort, elem_of_app.
    destruct (decide (x ∈ a)), (decide (x ∈ b)); tauto.
Qed.

Lemma setxor1d_manyways_nil :
  setxor1d [] [] = Ok [] ∧
  (aux1 <- intersect1d [] [] ;; aux2 <- union1d [] [] ;;
   setdiff1d aux2 aux1) = Raise IndexError.
Proof. split; reflexivity. Qed.

(** Whatever the argsort, one of the two copies of a duplicated value
    of [a] that is absent from [b] is flagged. *)
Lemma setmember1d_duplicate_flagged :
  ∃ f, setmember1d [1; 1] [] = Ok f ∧ f ≡ₚ [true; false].
Proof.
  assert (Forall int64 ([1; 1] ++ [])) as Hr.
  { repeat constructor; unfold int64, int_min, int_max; lia. }
  eexists. split; [by apply setmember1d_value|].
  assert (take (length [1; 1]) (member_indx [1; 1] []) ≡ₚ seq 0 2) as ->.
  { rewrite take_ge.
    - unfold member_indx. rewrite scipy.argsort_perm.
      by rewrite length_fmap, argsort_length.
    - unfold member_indx. by rewrite argsort_length, length_fmap,
        argsort_length. }
  reflexivity.
Qed.
End manyways.

(** ** An empty first argument *)

Lemma setmember1d_nil_l (sorter : scipy.ArgSort) (b : list Z) :
  Forall int64 b → b ≠ [] → setmember1d [] b = Ok [].
Proof. intros Hr Hne. by rewrite setmember1d_value. Qed.

Lemma setdiff1d_nil_l (sorter : scipy.ArgSort) (b : list Z) :
  Forall int64 b → b ≠ [] → setdiff1d [] b = Ok [].
Proof.
  intros Hr Hne. unfold setdiff1d. by rewrite setmember1d_nil_l.
Qed.

(** ** Maximal runs of a sorted array *)

Lemma last_of_runs_head x l : ∃ tl, last_of_runs (x :: l) = x :: tl.
Proof.
  revert x. induction l as [|y l IH]; intros x; [by exists []|].
  rewrite last_of_runs_cons2. destruct (y =? x) eqn:E; [|by eexists].
  apply Z.eqb_eq in E as ->. apply IH.
Qed.

(** In an ascending array the runs are the distinct values, each with the
    number of its occurrences. *)
Lemma runs_sorted l :
  StronglySorted Z.le l →
  runs l = (λ v, (v, count v l)) <$> last_of_runs l.
Proof.
  induction l as [|x [|y l] IH]; intros Hs; [done| |].
  - cbn. unfold count. simpl. by destruct (Z.eq_dec x x).
  - pose proof (sorted_next_elem_of x (y :: l) Hs) as Hnext.
    pose proof Hs as [_ Hs']%StronglySorted_cons. specialize (IH Hs').
    pose proof (last_of_runs_StronglySorted (y :: l)
                  (StronglySorted_Sorted Hs')) as Hlt.
    destruct (last_of_runs_head y l) as [tl Htl].
    rewrite Htl in IH, Hlt.
    change (runs (x :: y :: l))
      with (match runs (y :: l) with
            | [] => [(x, 1%nat)]
            | (y0, n) :: rs =>
                if y0 =? x then (x, S n) :: rs else (x, 1%nat) :: (y0, n) :: rs
            end).
    rewrite IH, fmap_cons, last_of_runs_cons2. destruct (y =? x) eqn:E.
    + apply Z.eqb_eq in E as ->. rewrite Htl, fmap_cons. f_equal.
      * f_equal. by rewrite (count_cons x x (x :: l)), decide_True.
      * apply Forall_fmap_ext_1, Forall_forall. intros v Hv. f_equal.
        rewrite (count_cons v x (x :: l)). rewrite decide_False; [done|].
        intros ->. apply StronglySorted_cons in Hlt as [Hall _].
        rewrite Forall_forall in Hall. specialize (Hall v Hv). lia.
    + assert (x ∉ y :: l) as Hx.
      { intros Hx. apply Hnext in Hx. done. }
      rewrite fmap_cons, Htl, fmap_cons. f_equal.
      * f_equal. rewrite (count_cons x x), decide_True by done.
        apply count_zero in Hx. lia.
      * assert (∀ v, v ∈ y :: tl → count v (y :: l) = count v (x :: y :: l))
          as Hcnt.
        { intros v Hv. rewrite (count_cons v x), decide_False; [done|].
          intros ->. apply Hx. rewrite <- Htl in Hv.
          by apply (proj1 (elem_of_last_of_runs _ _)). }
        f_equal; [f_equal; apply Hcnt; by left|].
        apply Forall_fmap_ext_1, Forall_forall. intros v Hv. f_equal.
        apply Hcnt. by right.
Qed.

(** Every run of an array has at least one element. *)
Lemma elem_of_runs_sorted l v n :
  StronglySorted Z.le l →
  (v, n) ∈ runs l ↔ v ∈ l ∧ n = count v l.
Proof.
  intros Hs. rewrite runs_sorted, list_elem_of_fmap by done. split.
  - intros (w & [= -> ->] & Hw). split; [|done].
    by apply (proj1 (elem_of_last_of_runs _ _)).
  - intros [Hv ->]. exists v. split; [done|].
    by apply (proj2 (elem_of_last_of_runs _ _)).
Qed.

(** The values whose run has length one are the values occurring once. *)
Lemma runs_of_length_one l :
  StronglySorted Z.le l →
  (filter (λ p : Z * nat, p.2 = 1%nat) (runs l)).*1
  = filter (λ x, count x l = 1%nat) l.
Proof.
  intros Hs. apply StronglySorted_lt_ext.
  - rewrite runs_sorted by done.
    eapply StronglySorted_sublist;
      [|apply last_of_runs_StronglySorted, StronglySorted_Sorted, Hs].
    induction (last_of_runs l) as [|v tl IH]; [done|].
    rewrite fmap_cons, filter_cons. cbn [snd].
    case_decide; [rewrite fmap_cons; by apply sublist_skip|].
    by apply sublist_cons.
  - by apply filter_once_StronglySorted.
  - intros x. rewrite list_elem_of_fmap, list_elem_of_filter. split.
    + intros ([v n] & -> & Hp). apply list_elem_of_filter in Hp as [Hn Hp].
      simpl in *. apply elem_of_runs_sorted in Hp as [Hv ->]; done.
    + intros [Hc Hx]. exists (x, 1%nat). split; [done|].
      apply list_elem_of_filter. split; [done|].
      apply elem_of_runs_sorted; done.
Qed.

(** ** Sorted order and original positions *)

Lemma ne0_mask_lookup l k :
  Forall int64 l → (k < length l)%nat →
  ne0 (adjacent l ++ [1]) !! k
  = Some (negb (bool_decide (l !! S k = l !! k))).
Proof.
  intros Hr Hk. pose proof (eq0_mask_lookup l k Hr Hk) as Heq.
  unfold ne0, eq0 in *. rewrite list_lookup_fmap in *.
  destruct ((adjacent l ++ [1]) !! k) as [d|]; [|done].
  simpl in *. by injection Heq as ->.
Qed.

Section argsort_order.
Context `{sorter : scipy.ArgSort}.
Implicit Types a : list Z.

(** Place [p] of the sorted array holds the element at position
    [argsort a !! p] of [a]. *)
Lemma argsort_sorted_lookup a p i :
  scipy.argsort a !! p = Some i →
  scipy.sort a !! p = a !! i ∧ is_Some (a !! i).
Proof.
  intros Hp. rewrite <- argsort_values, list_lookup_fmap, Hp. simpl.
  pose proof (argsort_lt a) as Hlt. rewrite Forall_lookup in Hlt.
  apply Hlt in Hp. apply lookup_lt_is_Some_2 in Hp as [y Hy].
  rewrite Hy. split; [|by eexists]. f_equal. by apply nth_lookup_Some.
Qed.

Lemma argsort_position a i :
  (i < length a)%nat → ∃ p, scipy.argsort a !! p = Some i.
Proof.
  intros Hi. apply list_elem_of_lookup.
  rewrite scipy.argsort_perm. apply elem_of_seq. lia.
Qed.

(** With a stable argsort, an element with a later equal element is
    followed by an equal element in sorted order. *)
Lemma stable_next_equal a p i j x :
  scipy.Stable sorter →
  scipy.argsort a !! p = Some i → a !! i = Some x →
  (i < j)%nat → a !! j = Some x →
  scipy.sort a !! S p = Some x.
Proof.
  intros Hst Hp Hi Hij Hj.
  destruct (argsort_position a j) as [q Hq]; [by eapply lookup_lt_Some|].
  assert (p < q)%nat as Hpq.
  { destruct (Nat.lt_trichotomy p q) as [?|[->|Hlt]]; [done|..].
    - rewrite Hp in Hq. injection Hq. lia.
    - pose proof (Hst a q p j i Hlt Hq Hp ltac:(congruence)). lia. }
  destruct (argsort_sorted_lookup a p i Hp) as [Hsp _].
  destruct (argsort_sorted_lookup a q j Hq) as [Hsq _].
  rewrite Hi in Hsp. rewrite Hj in Hsq.
  assert (S p < length (scipy.sort a))%nat as HSp.
  { apply Nat.le_lt_trans with q; [lia|]. by eapply lookup_lt_Some. }
  apply lookup_lt_is_Some_2 in HSp as [y Hy]. rewrite Hy. f_equal.
  pose proof (sort_Sorted a) as Hsorted.
  assert (x ≤ y)
    by (eapply (Sorted_le_lookup _ p (S p)); [done|lia|done..]).
  assert (y ≤ x)
    by (eapply (Sorted_le_lookup _ (S p) q); [done|lia|done..]).
  lia.
Qed.

Lemma unique1d_retIndx_value a :
  Forall int64 a → a ≠ [] →
  unique1d_retIndx a
  = Ok (select (ne0 (adjacent (scipy.sort a) ++ [1])) (scipy.argsort a),
        select (ne0 (adjacent (scipy.sort a) ++ [1])) (scipy.sort a)).
Proof.
  intros Hr Hne. unfold unique1d_retIndx. rewrite take_argsort. cbn [bind].
  assert (scipy.sort a ≠ []) as Hs by (intros ?%sort_nil_inv; done).
  assert (Forall int64 (scipy.sort a)) as Hrs
    by (by rewrite sort_Permutation).
  rewrite ediff1d_toEnd; [|done|unfold int64, int_min, int_max; lia|done..].
  cbn [bind].
  rewrite !compress_select
    by (rewrite ne0_mask_length, ?argsort_length, ?sort_length by done; lia).
  done.
Qed.
End argsort_order.

(** ** Flags of [setmember1d] with any argsort *)

Section setmember1d_any_argsort.
Context `{sorter : scipy.ArgSort}.
Implicit Types a b : list Z.

(** Whatever the argsort, a flagged position holds a value that occurs
    at another position of the concatenation. *)
Lemma setmember1d_flag_other_position a b i x :
  Forall int64 (a ++ b) → a !! i = Some x →
  ∃ f, setmember1d a b = Ok f ∧
       (f !! i = Some true →
        ∃ j, j ≠ i ∧ (a ++ b) !! j = Some x).
Proof.
  intros Hr Hi.
  assert (a ++ b ≠ []) as Hne by (by destruct a).
  eexists. split; [by apply setmember1d_value|].
  set (ar := a ++ b) in *. set (perm := scipy.argsort ar).
  assert (i < length a)%nat as Hia by (by eapply lookup_lt_Some).
  assert (ar !! i = Some x) as Hari by (by apply lookup_app_l_Some).
  assert (i < length ar)%nat as Hin by (by eapply lookup_lt_Some).
  destruct (argsort_inverse perm (length ar) i) as (k & Hk & Hpk);
    [apply scipy.argsort_perm|done|].
  fold perm in Hk.
  destruct (argsort_sorted_lookup ar k i Hpk) as [Hsk _].
  assert (k < length (scipy.sort ar))%nat as Hkn.
  { rewrite Hari in Hsk. by eapply lookup_lt_Some. }
  assert (Forall int64 (scipy.sort ar)) as Hrs
    by (by rewrite sort_Permutation).
  pose proof (eq0_mask_lookup _ k Hrs Hkn) as Hflag.
  fold (member_mask a b) in Hflag.
  rewrite list_lookup_fmap, lookup_take_lt by done.
  unfold member_indx. fold ar perm. rewrite Hk. simpl.
  rewrite (nth_lookup_Some _ _ _ _ Hflag), Hsk, Hari.
  intros [= Hb]. apply bool_decide_eq_true in Hb.
  assert (S k < length perm)%nat as HSk.
  { unfold perm. rewrite argsort_length, <- (sort_length ar).
    by eapply lookup_lt_Some. }
  apply lookup_lt_is_Some_2 in HSk as [j Hj].
  destruct (argsort_sorted_lookup ar (S k) j Hj) as [Hsj _].
  exists j. split; [|congruence].
  intros ->. assert (S k = k); [|lia].
  eapply NoDup_lookup; [apply (argsort_NoDup ar)|done..].
Qed.
End setmember1d_any_argsort.

(** * The specification's properties *)

(** ** Adjacent differences and their sentinels *)

(** C2: [ediff1d(a, toEnd)] should return the adjacent differences followed
    by [toEnd] for every sentinel, zero included.  The code tests the
    sentinel's truth value: with [toEnd = 0] on [[1, 2]] it returns the
    single difference [[1]] and no sentinel, with or without a zero
    [toBegin], and a zero [toBegin] next to a non-zero [toEnd] is dropped as
    well; for every array a zero [toEnd] alone gives just the differences. *)
Theorem ediff1d_zero_sentinel_dropped :
  ediff1d [1; 2] (Some 0) None = Ok [1] ∧
  ediff1d [1; 2] (Some 0) (Some 0) = Ok [1] ∧
  ediff1d [1; 2] (Some 5) (Some 0) = Ok [1; 5] ∧
  (∀ ar1, ediff1d ar1 (Some 0) None = Ok (adjacent ar1)) ∧
  (∀ ar1, length (adjacent ar1) = (length ar1 - 1)%nat).
Proof.
  repeat split; try reflexivity.
  - intros ar1. by apply ediff1d_falsy.
  - apply adjacent_length.
Qed.

(** C10: on the empty array with two non-zero sentinels the result has one
    slot; index [0] and index [-1] address that same slot, [toBegin] is
    written first and [toEnd] over it, so the result is [[toEnd]]. *)
Theorem ediff1d_empty_both_sentinels toEnd toBegin :
  toEnd ≠ 0 → int64 toEnd → toBegin ≠ 0 → int64 toBegin →
  ediff1d [] (Some toEnd) (Some toBegin) = Ok [toEnd] ∧
  scipy.index (length (scipy.empty (0 + 1))) 0
  = scipy.index (length (scipy.empty (0 + 1))) (-1) ∧
  (toBegin ≠ toEnd → toBegin ∉ [toEnd]).
Proof.
  intros He Hre Hb Hrb. split; [by apply ediff1d_both_nil|].
  split; [reflexivity|]. intros Hne Hin.
  by apply list_elem_of_singleton in Hin.
Qed.

Lemma ediff1d_empty_both_sentinels_witness :
  ediff1d [] (Some 3) (Some 7) = Ok [3] ∧
  scipy.index (length (scipy.empty (0 + 1))) 0
  = scipy.index (length (scipy.empty (0 + 1))) (-1) ∧
  (7 ≠ 3 → 7 ∉ [3]).
Proof.
  apply (ediff1d_empty_both_sentinels 3 7);
    unfold int64, int_min, int_max; lia.
Defined.

(** ** Empty inputs *)

(** C3: every operation should return an empty result on empty input.
    [unique1d], [union1d], [intersect1d_nu], [setmember1d] and [setdiff1d]
    raise [IndexError] instead, because [ediff1d] writes [ed[-1]] into an
    array of length zero; [intersect1d] and [setxor1d] return the empty
    array. *)
Theorem empty_input_raises :
  ediff1d [] (Some 1) None = Raise IndexError ∧
  unique1d [] = Raise IndexError ∧
  union1d [] [] = Raise IndexError ∧
  intersect1d_nu [] [] = Raise IndexError ∧
  (∀ sorter : scipy.ArgSort, @unique1d_retIndx sorter [] = Raise IndexError) ∧
  (∀ sorter : scipy.ArgSort, @setmember1d sorter [] [] = Raise IndexError) ∧
  (∀ sorter : scipy.ArgSort, @setdiff1d sorter [] [] = Raise IndexError) ∧
  intersect1d [] [] = Ok [] ∧
  setxor1d [] [] = Ok [].
Proof.
  repeat split; try reflexivity.
  - intros sorter. apply unique1d_retIndx_nil.
  - intros sorter. apply setmember1d_nil_nil.
  - intros sorter. apply setdiff1d_nil_nil.
Qed.

(** ** Deduplication *)

(** C4: [unique1d(a)] should be strictly ascending, with the elements of
    [a], for every array [a].  On the empty array the code returns nothing:
    it raises [IndexError]. *)
Theorem unique1d_empty_raises :
  unique1d [] = Raise IndexError ∧
  ¬ ∃ u, unique1d [] = Ok u.
Proof. split; [reflexivity|]. by intros [u Hu]. Qed.

(** C5: [unique1d(a, retIndx = True)] should return indices and values for
    every array [a].  On the empty array it raises [IndexError] whatever
    argsort is used. *)
Theorem unique1d_retIndx_empty_raises :
  ∀ sorter : scipy.ArgSort,
    @unique1d_retIndx sorter [] = Raise IndexError ∧
    ¬ ∃ r, @unique1d_retIndx sorter [] = Ok r.
Proof.
  intros sorter. rewrite unique1d_retIndx_nil. split; [done|].
  by intros [r Hr].
Qed.

(** ** Symmetric difference *)

(** C6: for duplicate-free [a] and [b], every maximal run of the sorted
    concatenation has length one or two, and [setxor1d(a, b)] is the
    strictly ascending array of the values whose run has length one, that
    is, of the values present in exactly one of [a] and [b]. *)
Theorem setxor1d_runs_of_length_one a b :
  Forall int64 a → Forall int64 b → NoDup a → NoDup b →
  ∃ r, setxor1d a b = Ok r ∧
       (∀ v n, (v, n) ∈ runs (scipy.sort (a ++ b)) → n = 1%nat ∨ n = 2%nat) ∧
       r = (filter (λ p : Z * nat, p.2 = 1%nat)
              (runs (scipy.sort (a ++ b)))).*1 ∧
       StronglySorted Z.lt r ∧
       (∀ x, x ∈ r ↔ (x ∈ a ∧ x ∉ b) ∨ ((x ∉ a) ∧ x ∈ b)).
Proof.
  intros Hra Hrb Ha Hb. eexists.
  split; [by apply setxor1d_unique_value|].
  pose proof (sort_StronglySorted (a ++ b)) as Hs.
  split; [|split; [|split]].
  - intros v n [Hv ->]%elem_of_runs_sorted; [|done].
    apply count_pos in Hv.
    pose proof (count_concat_le_2 a b v Ha Hb). lia.
  - by rewrite runs_of_length_one.
  - by apply filter_once_StronglySorted.
  - intros x. rewrite list_elem_of_filter, count_concat_once by done.
    rewrite elem_of_sort, elem_of_app. tauto.
Qed.

Lemma setxor1d_runs_of_length_one_witness :
  ∃ r, setxor1d [5; 7; 1; 2] [2; 4; 3; 1; 5] = Ok r ∧
       (∀ v n,
          (v, n) ∈ runs (scipy.sort ([5; 7; 1; 2] ++ [2; 4; 3; 1; 5])) →
          n = 1%nat ∨ n = 2%nat) ∧
       r = (filter (λ p : Z * nat, p.2 = 1%nat)
              (runs (scipy.sort ([5; 7; 1; 2] ++ [2; 4; 3; 1; 5])))).*1 ∧
       StronglySorted Z.lt r ∧
       (∀ x, x ∈ r ↔ (x ∈ [5; 7; 1; 2] ∧ x ∉ [2; 4; 3; 1; 5]) ∨
                     ((x ∉ [5; 7; 1; 2]) ∧ x ∈ [2; 4; 3; 1; 5])).
Proof.
  apply (setxor1d_runs_of_length_one [5; 7; 1; 2] [2; 4; 3; 1; 5]).
  - repeat constructor; unfold int64, int_min, int_max; lia.
  - repeat constructor; unfold int64, int_min, int_max; lia.
  - apply (bool_decide_unpack _). vm_compute. exact I.
  - apply (bool_decide_unpack _). vm_compute. exact I.
Defined.

(** C8: for duplicate-free [a] and [b], [setxor1d(a, b)] should equal
    [setdiff1d(union1d(a, b), intersect1d(a, b))].  For two empty arrays
    the left side is the empty array and the right side raises
    [IndexError] in [union1d], whatever argsort is used. *)
Theorem setxor1d_manyways_empty_differs :
  ∀ sorter : scipy.ArgSort,
    setxor1d [] [] = Ok [] ∧
    (aux1 <- intersect1d [] [] ;; aux2 <- union1d [] [] ;;
     @setdiff1d sorter aux2 aux1) = Raise IndexError ∧
    setxor1d [] []
    ≠ (aux1 <- intersect1d [] [] ;; aux2 <- union1d [] [] ;;
       @setdiff1d sorter aux2 aux1).
Proof.
  intros sorter. destruct (@setxor1d_manyways_nil sorter) as [H1 H2].
  split; [done|]. split; [done|]. by rewrite H1, H2.
Qed.

(** ** Difference *)

(** C7: [setdiff1d(a, b)] should be a subsequence of [a] with the values
    of [a] that are not in [b], for every pair of arrays.  For two empty
    arrays it raises [IndexError] in [setmember1d], whatever argsort is
    used. *)
Theorem setdiff1d_empty_raises :
  ∀ sorter : scipy.ArgSort,
    @setdiff1d sorter [] [] = Raise IndexError ∧
    ¬ ∃ r, @setdiff1d sorter [] [] = Ok r.
Proof.
  intros sorter. rewrite setdiff1d_nil_nil. split; [done|].
  by intros [r Hr].
Qed.

(** ** Membership *)

(** C9: for a first argument without duplicates the flag of [a[i]] should
    be true exactly when [a[i]] occurs in [b].  The code calls
    [scipy.argsort(ar)] without asking for a stable order; with an argsort
    that puts [b]'s copy of a value before [a]'s, the member [1] of
    [[1]] against [[1]] is not flagged, nor is any member of
    [[5, 7, 1, 2]] against [[2, 4, 3, 3, 2, 1, 5]].  That argsort is not
    stable, and the property does not hold for every argsort. *)
Theorem setmember1d_tie_order_misses_member :
  @setmember1d reversing [1] [1] = Ok [false] ∧
  NoDup ([1] : list Z) ∧ 1 ∈ ([1] : list Z) ∧
  @setmember1d reversing [5; 7; 1; 2] [2; 4; 3; 3; 2; 1; 5]
  = Ok [false; false; false; false] ∧
  ¬ scipy.Stable reversing ∧
  ¬ (∀ (sorter : scipy.ArgSort) (a b : list Z) (i : nat) (x : Z),
       Forall int64 (a ++ b) → NoDup a → a !! i = Some x →
       ∃ f, setmember1d a b = Ok f ∧ (f !! i = Some true ↔ x ∈ b)).
Proof.
  assert (@setmember1d reversing [1] [1] = Ok [false]) as Hrev
    by (vm_compute; reflexivity).
  split; [done|]. split; [apply NoDup_singleton|].
  split; [by apply list_elem_of_singleton|].
  split; [vm_compute; reflexivity|]. split.
  - intros Hst.
    pose proof (Hst [1; 1] 0%nat 1%nat 1%nat 0%nat ltac:(lia)
                  eq_refl eq_refl eq_refl). lia.
  - intros Hall.
    destruct (Hall reversing [1] [1] 0%nat 1) as (f & Hf & Hiff).
    + repeat constructor; unfold int64, int_min, int_max; lia.
    + apply NoDup_singleton.
    + reflexivity.
    + rewrite Hrev in Hf. injection Hf as <-.
      assert ([false] !! 0%nat = Some true) as Habs.
      { apply Hiff. by apply list_elem_of_singleton. }
      done.
Qed.

(** C1 as stated fails: in [[1, 1]] against the empty array one copy of
    [1] is flagged although [1] is not in [b], and the two copies get
    different flags, whichever way ties are ordered. *)
Lemma setmember1d_duplicates_counterexample :
  @setmember1d mergesort [1; 1] [] = Ok [true; false] ∧
  @setmember1d reversing [1; 1] [] = Ok [false; true] ∧
  1 ∉ ([] : list Z).
Proof.
  split; [vm_compute; reflexivity|]. split; [vm_compute; reflexivity|].
  apply not_elem_of_nil.
Qed.

(** C1, amended: for a first argument [a] without duplicates and any
    argsort, [setmember1d(a, b)] has the length of [a], a true flag at
    position [i] is only given when [a[i]] occurs in [b], and a value that
    does not occur in [b] gets the flag false; a value of [a] has one
    position, so one flag. *)
Theorem setmember1d_unique_no_false_flag
    (sorter : scipy.ArgSort) (a b : list Z) (i : nat) (x : Z) :
  Forall int64 (a ++ b) → NoDup a → a !! i = Some x →
  ∃ f, setmember1d a b = Ok f ∧
       length f = length a ∧
       (f !! i = Some true → x ∈ b) ∧
       (x ∉ b → f !! i = Some false) ∧
       (∀ i', a !! i' = Some x → f !! i' = f !! i).
Proof.
  intros Hr Hnd Hi.
  destruct (setmember1d_flag_other_position a b i x Hr Hi) as (f & Hf & Himp).
  pose proof (setmember1d_length a b f Hf) as Hlen.
  assert (f !! i = Some true → x ∈ b) as Htrue.
  { intros Ht. destruct (Himp Ht) as (j & Hji & Hj).
    apply lookup_app_Some in Hj as [Hj|[_ Hj]].
    - exfalso. apply Hji. by eapply NoDup_lookup.
    - by eapply list_elem_of_lookup_2. }
  exists f. split; [done|]. split; [done|]. split; [done|]. split.
  - intros Hb. assert (i < length f)%nat as Hif.
    { rewrite Hlen. by eapply lookup_lt_Some. }
    apply lookup_lt_is_Some_2 in Hif as [c Hc]. rewrite Hc in *.
    destruct c; [|done]. exfalso. by apply Hb, Htrue.
  - intros i' Hi'. by rewrite (NoDup_lookup a i i' x Hnd Hi Hi').
Qed.

Lemma setmember1d_unique_no_false_flag_witness :
  ∃ f, @setmember1d reversing [4; 7; 1; 8] [2; 4; 3; 1; 5] = Ok f ∧
       length f = length [4; 7; 1; 8] ∧
       (f !! 3%nat = Some true → 8 ∈ [2; 4; 3; 1; 5]) ∧
       (8 ∉ [2; 4; 3; 1; 5] → f !! 3%nat = Some false) ∧
       (∀ i', [4; 7; 1; 8] !! i' = Some 8 → f !! i' = f !! 3%nat).
Proof.
  apply (setmember1d_unique_no_false_flag reversing
           [4; 7; 1; 8] [2; 4; 3; 1; 5] 3 8).
  - repeat constructor; unfold int64, int_min, int_max; lia.
  - apply (bool_decide_unpack _). vm_compute. exact I.
  - reflexivity.
Defined.

(** * Further properties of the module *)

(** ** [ediff1d] *)

Lemma adjacent_lookup l i x y :
  l !! i = Some x → l !! S i = Some y → adjacent l !! i = Some (wsub y x).
Proof.
  revert i. induction l as [|x0 [|y0 l] IH]; intros i Hi HSi; [done..|].
  rewrite adjacent_cons2. destruct i as [|i].
  - simpl in *. congruence.
  - apply (IH i); done.
Qed.

Lemma wrap_small z : int64 z → wrap z = z.
Proof.
  unfold int64, wrap, int_min, int_max.
  change (2 ^ 63) with 9223372036854775808.
  change (2 ^ 64) with 18446744073709551616.
  intros Hz. rewrite Z.mod_small by lia. lia.
Qed.

(** Without sentinels [ediff1d] never fails: it returns [max(n - 1, 0)]
    elements, element [i] being [a[i+1] - a[i]] wrapped to the element type,
    which is the exact difference whenever that fits. *)
Theorem ediff1d_plain ar1 :
  ∃ d, ediff1d ar1 None None = Ok d ∧
       length d = (length ar1 - 1)%nat ∧
       (∀ i x y, ar1 !! i = Some x → ar1 !! S i = Some y →
                 d !! i = Some (wrap (y - x)) ∧
                 (int64 (y - x) → d !! i = Some (y - x))).
Proof.
  exists (adjacent ar1). split; [by apply ediff1d_falsy|].
  split; [apply adjacent_length|]. intros i x y Hi HSi.
  pose proof (adjacent_lookup ar1 i x y Hi HSi) as Hd. unfold wsub in Hd.
  split; [done|]. intros Hfit. by rewrite Hd, wrap_small.
Qed.

(** With non-zero sentinels on a non-empty array [ediff1d] appends
    [toEnd], prepends [toBegin], or does both, giving [n], [n] and [n + 1]
    elements. *)
Theorem ediff1d_nonzero_sentinels ar1 toEnd toBegin :
  ar1 ≠ [] → toEnd ≠ 0 → int64 toEnd → toBegin ≠ 0 → int64 toBegin →
  ediff1d ar1 (Some toEnd) None = Ok (adjacent ar1 ++ [toEnd]) ∧
  ediff1d ar1 None (Some toBegin) = Ok (toBegin :: adjacent ar1) ∧
  ediff1d ar1 (Some toEnd) (Some toBegin)
  = Ok (toBegin :: adjacent ar1 ++ [toEnd]) ∧
  length (adjacent ar1 ++ [toEnd]) = length ar1 ∧
  length (toBegin :: adjacent ar1) = length ar1 ∧
  length (toBegin :: adjacent ar1 ++ [toEnd]) = (length ar1 + 1)%nat.
Proof.
  intros Hne He Hre Hb Hrb.
  split; [by apply ediff1d_toEnd|]. split; [by apply ediff1d_toBegin|].
  split; [by apply ediff1d_both|].
  cbn [length]. rewrite length_app, adjacent_length. cbn [length].
  destruct ar1; [done|]. cbn [length]. lia.
Qed.

Lemma ediff1d_nonzero_sentinels_witness :
  ediff1d [4; 9; 7] (Some 1) None = Ok (adjacent [4; 9; 7] ++ [1]) ∧
  ediff1d [4; 9; 7] None (Some 2) = Ok (2 :: adjacent [4; 9; 7]) ∧
  ediff1d [4; 9; 7] (Some 1) (Some 2)
  = Ok (2 :: adjacent [4; 9; 7] ++ [1]) ∧
  length (adjacent [4; 9; 7] ++ [1]) = length [4; 9; 7] ∧
  length (2 :: adjacent [4; 9; 7]) = length [4; 9; 7] ∧
  length (2 :: adjacent [4; 9; 7] ++ [1]) = (length [4; 9; 7] + 1)%nat.
Proof.
  apply (ediff1d_nonzero_sentinels [4; 9; 7] 1 2);
    [done|lia|unfold int64, int_min, int_max; lia
    |lia|unfold int64, int_min, int_max; lia].
Defined.

(** On the empty array a single non-zero sentinel, at either end, makes
    [ediff1d] raise [IndexError]: the result array has no slot for it. *)
Theorem ediff1d_single_sentinel_empty v :
  v ≠ 0 →
  ediff1d [] (Some v) None = Raise IndexError ∧
  ediff1d [] None (Some v) = Raise IndexError.
Proof.
  intros Hv. split; [by apply ediff1d_toEnd_nil|by apply ediff1d_toBegin_nil].
Qed.

Lemma ediff1d_single_sentinel_empty_witness :
  ediff1d [] (Some 1) None = Raise IndexError ∧
  ediff1d [] None (Some 1) = Raise IndexError.
Proof. apply (ediff1d_single_sentinel_empty 1). lia. Defined.

(** ** [unique1d] *)

Lemma last_of_runs_strict l : StronglySorted Z.lt l → last_of_runs l = l.
Proof.
  induction l as [|x [|y l] IH]; intros Hs; [done..|].
  apply StronglySorted_cons in Hs as [Hall Hs].
  apply Forall_cons in Hall as [Hxy _].
  rewrite last_of_runs_cons2, IH by done.
  destruct (y =? x) eqn:E; [|done]. apply Z.eqb_eq in E. lia.
Qed.

Lemma sort_sorted l : Sorted Z.le l → scipy.sort l = l.
Proof. intros Hs. symmetry. by apply sort_unique. Qed.

Lemma StronglySorted_lt_le (l : list Z) :
  StronglySorted Z.lt l → StronglySorted Z.le l.
Proof.
  intros Hs. apply StronglySorted_fmap with (f := id) (R2 := Z.le) in Hs.
  - by rewrite list_fmap_id in Hs.
  - simpl. intros. lia.
Qed.

(** On a non-empty array [unique1d] returns a strictly ascending array
    without duplicates that has exactly the elements of its argument and is
    no longer than it. *)
Theorem unique1d_sorted_distinct a :
  Forall int64 a → a ≠ [] →
  ∃ u, unique1d a = Ok u ∧
       StronglySorted Z.lt u ∧ NoDup u ∧
       (∀ x, x ∈ u ↔ x ∈ a) ∧
       (length u ≤ length a)%nat.
Proof. apply unique1d_nonempty_spec. Qed.

Lemma unique1d_sorted_distinct_witness :
  ∃ u, unique1d [5; 7; 1; 2; 1; 5; 7] = Ok u ∧
       StronglySorted Z.lt u ∧ NoDup u ∧
       (∀ x, x ∈ u ↔ x ∈ [5; 7; 1; 2; 1; 5; 7]) ∧
       (length u ≤ length [5; 7; 1; 2; 1; 5; 7])%nat.
Proof.
  apply (unique1d_sorted_distinct [5; 7; 1; 2; 1; 5; 7]); [|done].
  repeat constructor; unfold int64, int_min, int_max; lia.
Defined.

(** [unique1d] is idempotent: applied to its own result it returns that
    result again. *)
Theorem unique1d_idempotent a :
  Forall int64 a → a ≠ [] →
  ∃ u, unique1d a = Ok u ∧ unique1d u = Ok u.
Proof.
  intros Hr Hne.
  destruct (unique1d_nonempty_spec a Hr Hne) as (u & Hu & Hs & _ & Hel & _).
  exists u. split; [done|].
  assert (u ≠ []) as Hune.
  { destruct a as [|x a]; [done|]. intros ->.
    by apply (elem_of_nil x), Hel; left. }
  assert (Forall int64 u) as Hru.
  { apply Forall_forall. intros x Hx. rewrite Forall_forall in Hr.
    by apply Hr, Hel. }
  rewrite unique1d_last_of_runs by done.
  rewrite sort_sorted
    by (by apply StronglySorted_Sorted, StronglySorted_lt_le).
  by rewrite last_of_runs_strict.
Qed.

Lemma unique1d_idempotent_witness :
  ∃ u, unique1d [5; 7; 1; 2; 1; 5; 7] = Ok u ∧ unique1d u = Ok u.
Proof.
  apply (unique1d_idempotent [5; 7; 1; 2; 1; 5; 7]); [|done].
  repeat constructor; unfold int64, int_min, int_max; lia.
Defined.

Lemma unique1d_same_values_aux a b :
  Forall int64 a → Forall int64 b → a ≠ [] →
  (∀ x, x ∈ a ↔ x ∈ b) →
  unique1d a = unique1d b.
Proof.
  intros Hra Hrb Hne Hab.
  assert (b ≠ []) as Hnb.
  { destruct a as [|x a]; [done|]. intros ->.
    by apply (elem_of_nil x), Hab; left. }
  destruct (unique1d_nonempty_spec a Hra Hne) as (u & Hu & Hsu & _ & Hua & _).
  destruct (unique1d_nonempty_spec b Hrb Hnb) as (v & Hv & Hsv & _ & Hvb & _).
  rewrite Hu, Hv. f_equal. apply StronglySorted_lt_ext; [done..|].
  intros x. by rewrite Hua, Hvb.
Qed.

(** [unique1d] depends only on the set of values of its argument: arrays
    with the same values, in any order and multiplicity, give the same
    result. *)
Theorem unique1d_same_values a b :
  Forall int64 a → Forall int64 b → a ≠ [] →
  (∀ x, x ∈ a ↔ x ∈ b) →
  unique1d a = unique1d b.
Proof. apply unique1d_same_values_aux. Qed.

Lemma unique1d_same_values_witness :
  unique1d [3; 1; 3; 2] = unique1d [2; 2; 1; 3; 1].
Proof.
  apply (unique1d_same_values [3; 1; 3; 2] [2; 2; 1; 3; 1]).
  - repeat constructor; unfold int64, int_min, int_max; lia.
  - repeat constructor; unfold int64, int_min, int_max; lia.
  - done.
  - intros x. rewrite !elem_of_cons, !elem_of_nil. tauto.
Defined.

(** ** [unique1d] with indices *)

(** On a non-empty array, with any argsort, the index variant returns as
    many positions as values; position [k] of the result points into [a]
    at the [k]-th value, taking [a] at the positions gives the values, and
    the values are those the plain variant returns. *)
Theorem unique1d_retIndx_positions (sorter : scipy.ArgSort) (a : list Z) :
  Forall int64 a → a ≠ [] →
  ∃ indx vals,
    unique1d_retIndx a = Ok (indx, vals) ∧
    length indx = length vals ∧
    (∀ k i, indx !! k = Some i → ∃ v, vals !! k = Some v ∧ a !! i = Some v) ∧
    scipy.take a indx = Ok vals ∧
    unique1d a = Ok vals.
Proof. apply unique1d_retIndx_nonempty_spec. Qed.

Lemma unique1d_retIndx_positions_witness :
  ∃ indx vals,
    @unique1d_retIndx mergesort [5; 7; 1; 2; 1; 5; 7] = Ok (indx, vals) ∧
    length indx = length vals ∧
    (∀ k i, indx !! k = Some i →
            ∃ v, vals !! k = Some v ∧ [5; 7; 1; 2; 1; 5; 7] !! i = Some v) ∧
    scipy.take [5; 7; 1; 2; 1; 5; 7] indx = Ok vals ∧
    unique1d [5; 7; 1; 2; 1; 5; 7] = Ok vals.
Proof.
  apply (unique1d_retIndx_positions mergesort [5; 7; 1; 2; 1; 5; 7]); [|done].
  repeat constructor; unfold int64, int_min, int_max; lia.
Defined.

(** With a stable argsort every returned index is the position of the
    last occurrence of its value in [a], and the indices are distinct. *)
Theorem unique1d_retIndx_last_occurrence
    (sorter : scipy.ArgSort) (a : list Z) :
  scipy.Stable sorter → Forall int64 a → a ≠ [] →
  ∃ indx vals,
    unique1d_retIndx a = Ok (indx, vals) ∧
    NoDup indx ∧
    (∀ k i, indx !! k = Some i →
            ∀ j, (i < j)%nat → a !! j ≠ a !! i).
Proof.
  intros Hst Hr Hne. eexists _, _.
  split; [by apply unique1d_retIndx_value|]. split.
  - eapply sublist_NoDup; [apply argsort_NoDup|apply select_sublist].
  - intros k i Hk j Hij Heq.
    apply list_elem_of_lookup_2, elem_of_select in Hk as (p & Hflag & Hp).
    destruct (argsort_sorted_lookup a p i Hp) as [Hsp [x Hx]].
    assert (Forall int64 (scipy.sort a)) as Hrs
      by (by rewrite sort_Permutation).
    assert (p < length (scipy.sort a))%nat as Hpn.
    { rewrite Hx in Hsp. by eapply lookup_lt_Some. }
    rewrite (ne0_mask_lookup _ p Hrs Hpn) in Hflag.
    injection Hflag as Hflag. apply negb_true_iff in Hflag.
    apply bool_decide_eq_false in Hflag. apply Hflag.
    rewrite Hsp, Hx. rewrite Hx in Heq.
    by apply (stable_next_equal a p i j x).
Qed.

Lemma unique1d_retIndx_last_occurrence_witness :
  ∃ indx vals,
    @unique1d_retIndx mergesort [5; 7; 1; 2; 1; 5; 7] = Ok (indx, vals) ∧
    NoDup indx ∧
    (∀ k i, indx !! k = Some i →
            ∀ j, (i < j)%nat →
                 [5; 7; 1; 2; 1; 5; 7] !! j ≠ [5; 7; 1; 2; 1; 5; 7] !! i).
Proof.
  apply (unique1d_retIndx_last_occurrence mergesort [5; 7; 1; 2; 1; 5; 7]);
    [exact mergesort_stable| |done].
  repeat constructor; unfold int64, int_min, int_max; lia.
Defined.

(** ** [intersect1d] and [intersect1d_nu] *)

Lemma count_first_of_pairs l x :
  StronglySorted Z.le l → count x (first_of_pairs l) = pred (count x l).
Proof.
  induction l as [|y [|z l] IH]; intros Hs.
  - done.
  - cbn [first_of_pairs]. rewrite count_cons, !count_nil. case_decide; lia.
  - pose proof (sorted_next_elem_of y (z :: l) Hs) as Hnext.
    apply StronglySorted_cons in Hs as [_ Hs]. specialize (IH Hs).
    rewrite first_of_pairs_cons2, (count_cons x y (z :: l)).
    destruct (z =? y) eqn:E.
    + destruct Hnext as [Hnext _]. specialize (Hnext eq_refl).
      apply count_pos in Hnext.
      rewrite (count_cons x y (first_of_pairs (z :: l))), IH.
      case_decide; [subst; lia|lia].
    + assert (y ∉ z :: l) as Hy by (intros Hy; by apply Hnext in Hy).
      apply count_zero in Hy. rewrite IH. case_decide; [subst; lia|lia].
Qed.

Lemma sort_app_comm a b : scipy.sort (a ++ b) = scipy.sort (b ++ a).
Proof.
  apply sort_unique; [apply sort_Sorted|].
  rewrite sort_Permutation. apply Permutation_app_comm.
Qed.

Lemma Forall_int64_elem_of (l1 l2 : list Z) :
  (∀ x, x ∈ l1 → x ∈ l2) → Forall int64 l2 → Forall int64 l1.
Proof.
  intros Hsub Hr. apply Forall_forall. intros x Hx.
  rewrite Forall_forall in Hr. by apply Hr, Hsub.
Qed.

Lemma intersect1d_multiplicity_aux a b :
  Forall int64 a → Forall int64 b →
  ∃ r, intersect1d a b = Ok r ∧
       StronglySorted Z.le r ∧
       (∀ x, count x r = pred (count x a + count x b)).
Proof.
  intros Hra Hrb. eexists.
  split; [apply intersect1d_value; by apply Forall_app|]. split.
  - eapply StronglySorted_sublist;
      [apply first_of_pairs_sublist|apply sort_StronglySorted].
  - intros x. rewrite count_first_of_pairs by apply sort_StronglySorted.
    by rewrite count_sort, count_app.
Qed.

(** [intersect1d] never fails and returns an ascending array in which a
    value occurs one time less than in [a] and [b] together: without the
    uniqueness the docstring asks for, a value repeated in one array is
    reported although the other array lacks it. *)
Theorem intersect1d_multiplicity a b :
  Forall int64 a → Forall int64 b →
  ∃ r, intersect1d a b = Ok r ∧
       StronglySorted Z.le r ∧
       (∀ x, count x r = pred (count x a + count x b)).
Proof. apply intersect1d_multiplicity_aux. Qed.

Lemma intersect1d_multiplicity_witness :
  ∃ r, intersect1d [1; 1; 4] [2; 4] = Ok r ∧
       StronglySorted Z.le r ∧
       (∀ x, count x r = pred (count x [1; 1; 4] + count x [2; 4])).
Proof.
  apply (intersect1d_multiplicity [1; 1; 4] [2; 4]);
    repeat constructor; unfold int64, int_min, int_max; lia.
Defined.

Lemma intersect1d_common_values_aux a b :
  Forall int64 a → Forall int64 b → NoDup a → NoDup b →
  ∃ r, intersect1d a b = Ok r ∧
       StronglySorted Z.lt r ∧
       (∀ x, x ∈ r ↔ x ∈ a ∧ x ∈ b).
Proof.
  intros Hra Hrb Ha Hb.
  destruct (intersect1d_multiplicity_aux a b Hra Hrb) as (r & Hr & Hs & Hc).
  exists r. split; [done|]. split.
  - apply StronglySorted_le_NoDup_lt; [done|].
    apply NoDup_count_le_1. intros x. rewrite Hc.
    pose proof (count_NoDup x a Ha). pose proof (count_NoDup x b Hb). lia.
  - intros x. rewrite <- count_pos, Hc, !count_NoDup_elem_of by done.
    repeat case_decide; split; try lia; tauto.
Qed.

(** For arrays without duplicates, empty ones included, [intersect1d]
    returns the strictly ascending array of the values present in both. *)
Theorem intersect1d_common_values a b :
  Forall int64 a → Forall int64 b → NoDup a → NoDup b →
  ∃ r, intersect1d a b = Ok r ∧
       StronglySorted Z.lt r ∧
       (∀ x, x ∈ r ↔ x ∈ a ∧ x ∈ b).
Proof. apply intersect1d_common_values_aux. Qed.

Lemma intersect1d_common_values_witness :
  ∃ r, intersect1d [5; 7; 1; 2] [2; 4; 3; 1; 5] = Ok r ∧
       StronglySorted Z.lt r ∧
       (∀ x, x ∈ r ↔ x ∈ [5; 7; 1; 2] ∧ x ∈ [2; 4; 3; 1; 5]).
Proof.
  apply (intersect1d_common_values [5; 7; 1; 2] [2; 4; 3; 1; 5]).
  - repeat constructor; unfold int64, int_min, int_max; lia.
  - repeat constructor; unfold int64, int_min, int_max; lia.
  - apply (bool_decide_unpack _). vm_compute. exact I.
  - apply (bool_decide_unpack _). vm_compute. exact I.
Defined.

(** [intersect1d] does not depend on the order of its arguments. *)
Theorem intersect1d_comm a b :
  Forall int64 a → Forall int64 b → intersect1d a b = intersect1d b a.
Proof.
  intros Hra Hrb.
  rewrite !intersect1d_value by (by apply Forall_app).
  by rewrite sort_app_comm.
Qed.

Lemma intersect1d_comm_witness :
  intersect1d [5; 7; 1; 2] [2; 4; 3; 1; 5]
  = intersect1d [2; 4; 3; 1; 5] [5; 7; 1; 2].
Proof.
  apply (intersect1d_comm [5; 7; 1; 2] [2; 4; 3; 1; 5]);
    repeat constructor; unfold int64, int_min, int_max; lia.
Defined.

Lemma intersect1d_nu_unique1d a b u1 u2 :
  unique1d a = Ok u1 → unique1d b = Ok u2 →
  intersect1d_nu a b = intersect1d u1 u2.
Proof. intros H1 H2. unfold intersect1d_nu. by rewrite H1, H2. Qed.

Lemma intersect1d_nu_common_values_aux a b :
  Forall int64 a → Forall int64 b → a ≠ [] → b ≠ [] →
  ∃ r, intersect1d_nu a b = Ok r ∧
       StronglySorted Z.lt r ∧
       (∀ x, x ∈ r ↔ x ∈ a ∧ x ∈ b).
Proof.
  intros Hra Hrb Hna Hnb.
  destruct (unique1d_nonempty_spec a Hra Hna) as (u1 & H1 & _ & Hd1 & He1 & _).
  destruct (unique1d_nonempty_spec b Hrb Hnb) as (u2 & H2 & _ & Hd2 & He2 & _).
  rewrite (intersect1d_nu_unique1d a b u1 u2 H1 H2).
  destruct (intersect1d_common_values_aux u1 u2) as (r & Hr & Hs & Hel);
    [eapply Forall_int64_elem_of; [|exact Hra]; intros x; apply He1
    |eapply Forall_int64_elem_of; [|exact Hrb]; intros x; apply He2
    |done..|].
  exists r. split; [done|]. split; [done|].
  intros x. by rewrite Hel, He1, He2.
Qed.

(** For non-empty arrays with any elements [intersect1d_nu] returns the
    strictly ascending array of the values present in both. *)
Theorem intersect1d_nu_common_values a b :
  Forall int64 a → Forall int64 b → a ≠ [] → b ≠ [] →
  ∃ r, intersect1d_nu a b = Ok r ∧
       StronglySorted Z.lt r ∧
       (∀ x, x ∈ r ↔ x ∈ a ∧ x ∈ b).
Proof. apply intersect1d_nu_common_values_aux. Qed.

Lemma intersect1d_nu_common_values_witness :
  ∃ r, intersect1d_nu [5; 5; 7; 1; 2] [2; 1; 4; 3; 3; 1; 5] = Ok r ∧
       StronglySorted Z.lt r ∧
       (∀ x, x ∈ r ↔ x ∈ [5; 5; 7; 1; 2] ∧ x ∈ [2; 1; 4; 3; 3; 1; 5]).
Proof.
  apply (intersect1d_nu_common_values [5; 5; 7; 1; 2] [2; 1; 4; 3; 3; 1; 5]);
    [| |done..];
    repeat constructor; unfold int64, int_min, int_max; lia.
Defined.

(** [intersect1d_nu] raises [IndexError] as soon as one of its arguments
    is empty, also when the other one is not. *)
Theorem intersect1d_nu_empty_argument a :
  Forall int64 a →
  intersect1d_nu [] a = Raise IndexError ∧
  intersect1d_nu a [] = Raise IndexError.
Proof.
  intros Hr. split; [done|]. unfold intersect1d_nu.
  destruct a as [|x a]; [done|].
  rewrite (unique1d_last_of_runs (x :: a)) by done. done.
Qed.

Lemma intersect1d_nu_empty_argument_witness :
  intersect1d_nu [] [3; 1] = Raise IndexError ∧
  intersect1d_nu [3; 1] [] = Raise IndexError.
Proof.
  apply (intersect1d_nu_empty_argument [3; 1]).
  repeat constructor; unfold int64, int_min, int_max; lia.
Defined.

(** The first check of [test_manyways],
    [intersect1d_nu(a, b) == unique1d(intersect1d(a, b))], holds when the
    arrays share a value and every value that occurs twice in [a] and [b]
    together occurs in both of them. *)
Theorem intersect1d_nu_manyways a b :
  Forall int64 a → Forall int64 b →
  (∃ x, x ∈ a ∧ x ∈ b) →
  (∀ x, (2 ≤ count x a + count x b)%nat → x ∈ a ∧ x ∈ b) →
  intersect1d_nu a b = (c <- intersect1d a b ;; unique1d c).
Proof.
  intros Hra Hrb (x0 & Hx0a & Hx0b) Htwice.
  assert (a ≠ []) as Hna by (intros ->; by apply elem_of_nil in Hx0a).
  assert (b ≠ []) as Hnb by (intros ->; by apply elem_of_nil in Hx0b).
  destruct (intersect1d_nu_common_values_aux a b Hra Hrb Hna Hnb)
    as (r & Hr & Hsr & Her).
  destruct (intersect1d_multiplicity_aux a b Hra Hrb) as (c & Hc & _ & Hcc).
  rewrite Hr, Hc. cbn [bind].
  assert (∀ x, x ∈ c ↔ x ∈ a ∧ x ∈ b) as Hec.
  { intros x. rewrite <- count_pos, Hcc. split.
    - intros Hx. apply Htwice. lia.
    - intros [Hxa%count_pos Hxb%count_pos]. lia. }
  assert (c ≠ []) as Hnc.
  { intros ->. by apply (elem_of_nil x0), Hec. }
  assert (Forall int64 c) as Hrc.
  { eapply Forall_int64_elem_of; [|exact Hra]. intros x. apply Hec. }
  destruct (unique1d_nonempty_spec c Hrc Hnc) as (u & Hu & Hsu & _ & Heu & _).
  rewrite Hu. f_equal. apply StronglySorted_lt_ext; [done..|].
  intros x. by rewrite Her, Heu, Hec.
Qed.

Lemma intersect1d_nu_manyways_witness :
  intersect1d_nu [1; 2; 2; 1] [2; 1; 1]
  = (c <- intersect1d [1; 2; 2; 1] [2; 1; 1] ;; unique1d c).
Proof.
  apply (intersect1d_nu_manyways [1; 2; 2; 1] [2; 1; 1]).
  - repeat constructor; unfold int64, int_min, int_max; lia.
  - repeat constructor; unfold int64, int_min, int_max; lia.
  - exists 1. rewrite !elem_of_cons. tauto.
  - intros x Hx. rewrite !elem_of_cons, !elem_of_nil.
    destruct (decide (x = 1)) as [->|H1]; [tauto|].
    destruct (decide (x = 2)) as [->|H2]; [tauto|].
    exfalso. revert Hx. rewrite !count_cons, !count_nil.
    repeat case_decide; try congruence. lia.
Defined.

(** ** [union1d] *)

(** For arrays that are not both empty [union1d] returns the strictly
    ascending array of the values present in [a] or in [b]. *)
Theorem union1d_values a b :
  Forall int64 a → Forall int64 b → a ++ b ≠ [] →
  ∃ u, union1d a b = Ok u ∧ StronglySorted Z.lt u ∧
       (∀ x, x ∈ u ↔ x ∈ a ∨ x ∈ b).
Proof.
  intros Hra Hrb Hne. apply union1d_nonempty_spec; [|done].
  by apply Forall_app.
Qed.

Lemma union1d_values_witness :
  ∃ u, union1d [5; 4; 7; 1; 2] [2; 4; 3; 3; 2; 1; 5] = Ok u ∧
       StronglySorted Z.lt u ∧
       (∀ x, x ∈ u ↔ x ∈ [5; 4; 7; 1; 2] ∨ x ∈ [2; 4; 3; 3; 2; 1; 5]).
Proof.
  apply (union1d_values [5; 4; 7; 1; 2] [2; 4; 3; 3; 2; 1; 5]); [| |done];
    repeat constructor; unfold int64, int_min, int_max; lia.
Defined.

(** [union1d] does not depend on the order of its arguments, and the union
    of an array with itself is its [unique1d]. *)
Theorem union1d_comm_idem a b :
  Forall int64 a → Forall int64 b →
  union1d a b = union1d b a ∧ union1d a a = unique1d a.
Proof.
  intros Hra Hrb. unfold union1d, scipy.concatenate. split.
  - destruct (decide (a ++ b = [])) as [Hnil|Hne].
    + by apply app_eq_nil in Hnil as [-> ->].
    + apply unique1d_same_values_aux; [by apply Forall_app..|done|].
      intros x. rewrite !elem_of_app. tauto.
  - destruct a as [|y a]; [done|].
    apply unique1d_same_values_aux; [by apply Forall_app|done..|].
    intros x. rewrite elem_of_app. tauto.
Qed.

Lemma union1d_comm_idem_witness :
  union1d [5; 4; 7] [2; 4; 3] = union1d [2; 4; 3] [5; 4; 7] ∧
  union1d [5; 4; 7] [5; 4; 7] = unique1d [5; 4; 7].
Proof.
  apply (union1d_comm_idem [5; 4; 7] [2; 4; 3]);
    repeat constructor; unfold int64, int_min, int_max; lia.
Defined.

(** ** [setxor1d] *)

Lemma xor_scan_sublist prev l : xor_scan prev l `sublist_of` l.
Proof.
  revert prev. induction l as [|x l IH]; intros prev; [done|].
  cbn [xor_scan]. destruct (eqb prev _).
  - apply sublist_skip, IH.
  - apply sublist_cons, IH.
Qed.

(** How often a value survives the scan: a run that starts inside [l]
    keeps its only element, or all but its first and last; a run already
    begun before [l] keeps all but its last. *)
Lemma count_xor_scan l : ∀ p x,
  StronglySorted Z.le (option_list p ++ l) →
  count x (xor_scan (prev_flag p l) l)
  = if decide (p = Some x) then pred (count x l)
    else if decide (count x l = 1%nat) then 1%nat
    else (count x l - 2)%nat.
Proof.
  induction l as [|y l IH]; intros p x Hs.
  { cbn [xor_scan]. rewrite count_nil. by repeat case_decide. }
  assert (StronglySorted Z.le (y :: l)) as Hs'.
  { destruct p; [by apply StronglySorted_cons in Hs as [_ ?]|done]. }
  pose proof (sorted_next_elem_of y l Hs') as Hnext.
  change (xor_scan (prev_flag p (y :: l)) (y :: l))
    with (if eqb (prev_flag p (y :: l)) (prev_flag (Some y) l)
          then y :: xor_scan (prev_flag (Some y) l) l
          else xor_scan (prev_flag (Some y) l) l).
  change (match l with [] => false | y0 :: _ => y0 =? y end)
    with (prev_flag (Some y) l) in Hnext.
  specialize (IH (Some y) x Hs').
  assert (prev_flag p (y :: l) = true ↔ p = Some y) as Hprev.
  { destruct p as [v|]; cbn [prev_flag]; [|done].
    rewrite Z.eqb_eq. split; congruence. }
  pose proof (count_pos y l) as Hpos.
  rewrite (count_cons x y l).
  destruct (decide (y = x)) as [->|Hyx].
  - rewrite decide_True in IH by done.
    destruct (prev_flag p (x :: l)) eqn:E1, (prev_flag (Some x) l) eqn:E2;
      cbn [eqb]; rewrite ?(count_cons x x), ?decide_True, IH by done.
    + destruct Hprev as [Hprev _]. rewrite decide_True by auto.
      destruct Hnext as [Hnext _]. specialize (Hnext eq_refl).
      apply Hpos in Hnext. lia.
    + destruct Hprev as [Hprev _]. rewrite decide_True by auto.
      assert (x ∉ l) as Hx by (intros Hx; by apply Hnext in Hx).
      apply count_zero in Hx. lia.
    + assert (p ≠ Some x) as Hp by (intros Hp; by apply Hprev in Hp).
      rewrite decide_False by done.
      destruct Hnext as [Hnext _]. specialize (Hnext eq_refl).
      apply Hpos in Hnext. case_decide; lia.
    + assert (p ≠ Some x) as Hp by (intros Hp; by apply Hprev in Hp).
      rewrite decide_False by done.
      assert (x ∉ l) as Hx by (intros Hx; by apply Hnext in Hx).
      apply count_zero in Hx. case_decide; lia.
  - rewrite decide_False in IH by congruence.
    assert (count x (if eqb (prev_flag p (y :: l)) (prev_flag (Some y) l)
                     then y :: xor_scan (prev_flag (Some y) l) l
                     else xor_scan (prev_flag (Some y) l) l)
            = count x (xor_scan (prev_flag (Some y) l) l)) as ->.
    { destruct (eqb _ _); [|done]. by rewrite count_cons, decide_False. }
    rewrite IH. cbn [Nat.add].
    destruct (decide (p = Some x)) as [->|Hp]; [|done].
    change (option_list (Some x) ++ y :: l) with (x :: y :: l) in Hs.
    apply StronglySorted_cons in Hs as [Hall _].
    apply Forall_cons in Hall as [Hxy _].
    assert (x ∉ l) as Hx.
    { intros Hx. apply StronglySorted_cons in Hs' as [Hall' _].
      rewrite Forall_forall in Hall'. specialize (Hall' x Hx). lia. }
    apply count_zero in Hx. rewrite Hx. by case_decide.
Qed.

Lemma setxor1d_multiplicity_aux a b :
  Forall int64 a → Forall int64 b →
  ∃ r, setxor1d a b = Ok r ∧
       r `sublist_of` scipy.sort (a ++ b) ∧
       StronglySorted Z.le r ∧
       (∀ x, count x r
             = if decide (count x a + count x b = 1)%nat then 1%nat
               else (count x a + count x b - 2)%nat).
Proof.
  intros Hra Hrb. eexists. split; [by apply setxor1d_xor_scan|].
  split; [apply xor_scan_sublist|]. split.
  - eapply StronglySorted_sublist;
      [apply xor_scan_sublist|apply sort_StronglySorted].
  - intros x.
    pose proof (count_xor_scan (scipy.sort (a ++ b)) None x
                  (sort_StronglySorted (a ++ b))) as Hc.
    change (prev_flag None (scipy.sort (a ++ b))) with false in Hc.
    rewrite Hc, decide_False by done. by rewrite count_sort, count_app.
Qed.

(** [setxor1d] never fails.  It returns an ascending part of the sorted
    concatenation in which a value occurring once in [a] and [b] together
    occurs once and a value occurring [k ≥ 2] times occurs [k - 2] times: a
    value present three times, against the uniqueness the docstring asks
    for, is reported. *)
Theorem setxor1d_multiplicity a b :
  Forall int64 a → Forall int64 b →
  ∃ r, setxor1d a b = Ok r ∧
       r `sublist_of` scipy.sort (a ++ b) ∧
       StronglySorted Z.le r ∧
       (∀ x, count x r
             = if decide (count x a + count x b = 1)%nat then 1%nat
               else (count x a + count x b - 2)%nat).
Proof. apply setxor1d_multiplicity_aux. Qed.

Lemma setxor1d_multiplicity_witness :
  ∃ r, setxor1d [3; 1; 3] [3; 2] = Ok r ∧
       r `sublist_of` scipy.sort ([3; 1; 3] ++ [3; 2]) ∧
       StronglySorted Z.le r ∧
       (∀ x, count x r
             = if decide
                    ((count x [3; 1; 3]%Z + count x [3; 2]%Z)%nat = 1%nat)
               then 1%nat
               else (count x [3; 1; 3]%Z + count x [3; 2]%Z - 2)%nat).
Proof.
  apply (setxor1d_multiplicity [3; 1; 3] [3; 2]);
    repeat constructor; unfold int64, int_min, int_max; lia.
Defined.

(** [setxor1d] does not depend on the order of its arguments. *)
Theorem setxor1d_commutes a b :
  Forall int64 a → Forall int64 b → setxor1d a b = setxor1d b a.
Proof. apply setxor1d_comm. Qed.

Lemma setxor1d_commutes_witness :
  setxor1d [5; 7; 1; 2] [2; 4; 3; 1; 5] = setxor1d [2; 4; 3; 1; 5] [5; 7; 1; 2].
Proof.
  apply (setxor1d_commutes [5; 7; 1; 2] [2; 4; 3; 1; 5]);
    repeat constructor; unfold int64, int_min, int_max; lia.
Defined.

(** For an array without duplicates, the symmetric difference with the
    empty array is the sorted array, on either side, and the symmetric
    difference with itself is empty. *)
Theorem setxor1d_empty_and_self a :
  Forall int64 a → NoDup a →
  setxor1d a [] = Ok (scipy.sort a) ∧
  setxor1d [] a = Ok (scipy.sort a) ∧
  setxor1d a a = Ok [].
Proof.
  intros Hr Hnd.
  assert (setxor1d a [] = Ok (scipy.sort a)) as Hnil.
  { rewrite setxor1d_unique_value by (done || constructor). f_equal.
    rewrite app_nil_r. apply StronglySorted_lt_ext.
    - apply filter_once_StronglySorted, sort_StronglySorted.
    - apply StronglySorted_le_NoDup_lt; [apply sort_StronglySorted|].
      by rewrite sort_Permutation.
    - intros x. rewrite list_elem_of_filter, count_sort.
      rewrite count_NoDup_elem_of by done. rewrite elem_of_sort.
      case_decide; split; try tauto; try lia. }
  split; [done|]. split.
  - by rewrite <- setxor1d_comm by (done || constructor).
  - destruct (setxor1d_multiplicity_aux a a Hr Hr) as (r & Hra & _ & _ & Hc).
    rewrite Hra. f_equal. destruct r as [|x r]; [done|]. exfalso.
    specialize (Hc x). rewrite (count_cons x x r), decide_True in Hc by done.
    pose proof (count_NoDup x a Hnd). case_decide; lia.
Qed.

Lemma setxor1d_empty_and_self_witness :
  setxor1d [5; 7; 1; 2] [] = Ok (scipy.sort [5; 7; 1; 2]) ∧
  setxor1d [] [5; 7; 1; 2] = Ok (scipy.sort [5; 7; 1; 2]) ∧
  setxor1d [5; 7; 1; 2] [5; 7; 1; 2] = Ok [].
Proof.
  apply (setxor1d_empty_and_self [5; 7; 1; 2]).
  - repeat constructor; unfold int64, int_min, int_max; lia.
  - apply (bool_decide_unpack _). vm_compute. exact I.
Defined.

(** For arrays without duplicates that are not both empty, and a stable
    argsort, [setxor1d(a, b)] equals
    [setdiff1d(union1d(a, b), intersect1d(a, b))], the identity that
    [test_manyways] checks on one pair of arrays. *)
Theorem setxor1d_union_minus_intersection
    (sorter : scipy.ArgSort) (a b : list Z) :
  scipy.Stable sorter →
  Forall int64 a → Forall int64 b → NoDup a → NoDup b → a ++ b ≠ [] →
  setxor1d a b
  = (aux1 <- intersect1d a b ;; aux2 <- union1d a b ;; setdiff1d aux2 aux1).
Proof. apply setxor1d_manyways_nonempty. Qed.

Lemma setxor1d_union_minus_intersection_witness :
  setxor1d [5; 7; 1; 2; 8] [9; 8; 2; 4; 3; 1; 5]
  = (aux1 <- intersect1d [5; 7; 1; 2; 8] [9; 8; 2; 4; 3; 1; 5] ;;
     aux2 <- union1d [5; 7; 1; 2; 8] [9; 8; 2; 4; 3; 1; 5] ;;
     @setdiff1d mergesort aux2 aux1).
Proof.
  apply (setxor1d_union_minus_intersection mergesort
           [5; 7; 1; 2; 8] [9; 8; 2; 4; 3; 1; 5]).
  - exact mergesort_stable.
  - repeat constructor; unfold int64, int_min, int_max; lia.
  - repeat constructor; unfold int64, int_min, int_max; lia.
  - apply (bool_decide_unpack _). vm_compute. exact I.
  - apply (bool_decide_unpack _). vm_compute. exact I.
  - done.
Defined.

(** ** [setmember1d] *)

(** For arrays that are not both empty, with any argsort, [setmember1d]
    returns one flag per element of [a]. *)
Theorem setmember1d_one_flag_each
    (sorter : scipy.ArgSort) (a b : list Z) :
  Forall int64 a → Forall int64 b → a ++ b ≠ [] →
  ∃ f, setmember1d a b = Ok f ∧ length f = length a.
Proof.
  intros Hra Hrb Hne.
  pose proof (setmember1d_value a b (proj2 (Forall_app _ _ _) (conj Hra Hrb))
                Hne) as Hf.
  eexists. split; [exact Hf|]. by eapply setmember1d_length.
Qed.

Lemma setmember1d_one_flag_each_witness :
  ∃ f, @setmember1d reversing [5; 7; 5; 2] [2; 2] = Ok f ∧
       length f = length [5; 7; 5; 2].
Proof.
  apply (setmember1d_one_flag_each reversing [5; 7; 5; 2] [2; 2]); [| |done];
    repeat constructor; unfold int64, int_min, int_max; lia.
Defined.

(** With a stable argsort and no assumption on duplicates, position [i]
    of [a] is flagged exactly when [a[i]] occurs again later in [a] or
    occurs in [b]: of the copies of a value of [a] that is not in [b], all
    but the last are flagged. *)
Theorem setmember1d_later_occurrence
    (sorter : scipy.ArgSort) (a b : list Z) (i : nat) (x : Z) :
  scipy.Stable sorter → Forall int64 (a ++ b) → a !! i = Some x →
  ∃ f, setmember1d a b = Ok f ∧
       (f !! i = Some true ↔
        (∃ j, (i < j)%nat ∧ a !! j = Some x) ∨ x ∈ b).
Proof.
  intros Hst Hr Hi.
  destruct (setmember1d_lookup a b i x Hst Hr Hi) as (f & Hf & _ & Hiff).
  exists f. split; [done|]. rewrite Hiff. split.
  - intros (j & Hij & Hj). apply lookup_app_Some in Hj as [Hj|[_ Hj]].
    + left. eauto.
    + right. by eapply list_elem_of_lookup_2.
  - intros [(j & Hij & Hj)|Hb].
    + exists j. split; [done|]. by apply lookup_app_l_Some.
    + apply list_elem_of_lookup in Hb as [j Hj].
      exists (length a + j)%nat.
      split; [apply lookup_lt_Some in Hi; lia|].
      by rewrite lookup_app_r, Nat.add_comm, Nat.add_sub by lia.
Qed.

Lemma setmember1d_later_occurrence_witness :
  ∃ f, @setmember1d mergesort [6; 1; 6] [1] = Ok f ∧
       (f !! 0%nat = Some true ↔
        (∃ j, (0 < j)%nat ∧ [6; 1; 6] !! j = Some 6) ∨ 6 ∈ [1]).
Proof.
  apply (setmember1d_later_occurrence mergesort [6; 1; 6] [1] 0 6).
  - exact mergesort_stable.
  - repeat constructor; unfold int64, int_min, int_max; lia.
  - reflexivity.
Defined.

(** Whatever the argsort, when [a] has no duplicates a flag is true only
    for a value that occurs in [b]: stability matters for missed members,
    not for wrong ones. *)
Theorem setmember1d_no_false_member
    (sorter : scipy.ArgSort) (a b : list Z) (i : nat) (x : Z) :
  Forall int64 (a ++ b) → NoDup a → a !! i = Some x →
  ∃ f, setmember1d a b = Ok f ∧ (f !! i = Some true → x ∈ b).
Proof.
  intros Hr Hnd Hi.
  destruct (setmember1d_flag_other_position a b i x Hr Hi) as (f & Hf & Himp).
  exists f. split; [done|]. intros Ht.
  destruct (Himp Ht) as (j & Hji & Hj).
  apply lookup_app_Some in Hj as [Hj|[_ Hj]].
  - exfalso. apply Hji. by eapply NoDup_lookup.
  - by eapply list_elem_of_lookup_2.
Qed.

Lemma setmember1d_no_false_member_witness :
  ∃ f, @setmember1d reversing [5; 7; 1; 2] [2; 4; 3; 1; 5] = Ok f ∧
       (f !! 1%nat = Some true → 7 ∈ [2; 4; 3; 1; 5]).
Proof.
  apply (setmember1d_no_false_member reversing
           [5; 7; 1; 2] [2; 4; 3; 1; 5] 1 7).
  - repeat constructor; unfold int64, int_min, int_max; lia.
  - apply (bool_decide_unpack _). vm_compute. exact I.
  - reflexivity.
Defined.

(** ** [setdiff1d] *)

Section setdiff1d_any_argsort.
Context `{sorter : scipy.ArgSort}.
Implicit Types a b : list Z.

(** The flag of position [i] compares the element after its place [k] in
    sorted order with its value. *)
Lemma member_flag_lookup a b i x :
  Forall int64 (a ++ b) → a !! i = Some x →
  ∃ k, scipy.argsort (a ++ b) !! k = Some i ∧
       ((λ k, nth k (member_mask a b) false)
          <$> take (length a) (member_indx a b)) !! i
       = Some (bool_decide (scipy.sort (a ++ b) !! S k = Some x)).
Proof.
  intros Hr Hi. set (ar := a ++ b) in *. set (perm := scipy.argsort ar).
  assert (i < length a)%nat as Hia by (by eapply lookup_lt_Some).
  assert (ar !! i = Some x) as Hari by (by apply lookup_app_l_Some).
  assert (i < length ar)%nat as Hin by (by eapply lookup_lt_Some).
  destruct (argsort_inverse perm (length ar) i) as (k & Hk & Hpk);
    [apply scipy.argsort_perm|done|].
  fold perm in Hk. exists k. split; [done|].
  destruct (argsort_sorted_lookup ar k i Hpk) as [Hsk _].
  assert (k < length (scipy.sort ar))%nat as Hkn.
  { rewrite Hari in Hsk. by eapply lookup_lt_Some. }
  assert (Forall int64 (scipy.sort ar)) as Hrs
    by (by rewrite sort_Permutation).
  pose proof (eq0_mask_lookup _ k Hrs Hkn) as Hflag.
  fold (member_mask a b) in Hflag.
  rewrite list_lookup_fmap, lookup_take_lt by done.
  unfold member_indx. fold ar perm. rewrite Hk. simpl.
  by rewrite (nth_lookup_Some _ _ _ _ Hflag), Hsk, Hari.
Qed.

Lemma setdiff1d_value a b :
  Forall int64 (a ++ b) → a ++ b ≠ [] →
  setdiff1d a b
  = Ok (select (beq0 ((λ k, nth k (member_mask a b) false)
                        <$> take (length a) (member_indx a b))) a).
Proof.
  intros Hr Hne. unfold setdiff1d.
  pose proof (setmember1d_value a b Hr Hne) as Hval.
  pose proof (setmember1d_length a b _ Hval) as Hlen.
  rewrite Hval. cbn [bind].
  by rewrite compress_select by (unfold beq0; rewrite length_fmap; lia).
Qed.

(** Whatever the argsort, every value of [a] that is not in [b] is kept. *)
Lemma setdiff1d_keeps a b x :
  Forall int64 (a ++ b) → x ∈ a → x ∉ b →
  x ∈ select (beq0 ((λ k, nth k (member_mask a b) false)
                      <$> take (length a) (member_indx a b))) a.
Proof.
  intros Hr Ha Hb. set (ar := a ++ b) in *.
  assert (x ∈ scipy.sort ar) as Hxs.
  { apply elem_of_sort, elem_of_app. by left. }
  destruct (last_occurrence _ x Hxs) as (k & Hk & Hlast).
  assert (k < length (scipy.argsort ar))%nat as Hkp.
  { rewrite argsort_length, <- (sort_length ar). by eapply lookup_lt_Some. }
  apply lookup_lt_is_Some_2 in Hkp as [i Hpi].
  destruct (argsort_sorted_lookup ar k i Hpi) as [Hsk _].
  rewrite Hk in Hsk. symmetry in Hsk.
  apply lookup_app_Some in Hsk as [Hi|[_ Hi]];
    [|exfalso; apply Hb; by eapply list_elem_of_lookup_2].
  destruct (member_flag_lookup a b i x Hr Hi) as (k' & Hk' & Hf).
  assert (k' = k) as ->.
  { eapply NoDup_lookup; [apply (argsort_NoDup ar)|done..]. }
  apply elem_of_select. exists i. split; [|done].
  unfold beq0. rewrite list_lookup_fmap, Hf. simpl. f_equal.
  apply negb_true_iff, bool_decide_eq_false. apply Hlast. lia.
Qed.
End setdiff1d_any_argsort.

Lemma sublist_all_elem_of (l1 l2 : list Z) :
  l1 `sublist_of` l2 → NoDup l2 → (∀ x, x ∈ l2 → x ∈ l1) → l1 = l2.
Proof.
  induction 1 as [|x l1 l2 Hsub IH|x l1 l2 Hsub IH]; intros Hnd Hall.
  - done.
  - apply NoDup_cons in Hnd as [Hx Hnd]. f_equal. apply IH; [done|].
    intros y Hy. assert (y ∈ x :: l1) as Hy1 by (apply Hall; by right).
    apply elem_of_cons in Hy1 as [->|?]; done.
  - apply NoDup_cons in Hnd as [Hx Hnd]. exfalso. apply Hx.
    eapply elem_of_sublist; [|done]. apply Hall. by left.
Qed.

Lemma NoDup_select (c : list bool) (a : list Z) :
  (∀ i j x, (i < j)%nat → c !! i = Some true → c !! j = Some true →
            a !! i = Some x → a !! j = Some x → False) →
  NoDup (select c a).
Proof.
  revert a. induction c as [|f c IH]; intros [|y a] Hdist;
    cbn [select]; try apply NoDup_nil_2.
  assert (NoDup (select c a)) as Hnd.
  { apply IH. intros i j x Hij. apply (Hdist (S i) (S j) x). lia. }
  destruct f; [|done]. apply NoDup_cons. split; [|done].
  intros (j & Hcj & Haj)%elem_of_select.
  by apply (Hdist 0%nat (S j) y ltac:(lia)).
Qed.

(** With a stable argsort and arrays that are not both empty,
    [setdiff1d(a, b)] is a subsequence of [a] that holds exactly the values
    of [a] that are not in [b], each of them once: the last copy. *)
Theorem setdiff1d_stable_values
    (sorter : scipy.ArgSort) (a b : list Z) :
  scipy.Stable sorter → Forall int64 (a ++ b) → a ++ b ≠ [] →
  ∃ r, setdiff1d a b = Ok r ∧
       r `sublist_of` a ∧
       (∀ x, x ∈ r ↔ x ∈ a ∧ x ∉ b) ∧
       NoDup r.
Proof.
  intros Hst Hr Hne.
  destruct (setdiff1d_stable_spec a b Hst Hr Hne) as (r & Hrv & Hsub & Hel).
  exists r. split; [done|]. split; [done|]. split; [done|].
  rewrite setdiff1d_value in Hrv by done. injection Hrv as <-.
  apply NoDup_select. intros i j x Hij Hci Hcj Hi Hj.
  destruct (setmember1d_lookup a b i x Hst Hr Hi) as (f & Hf & _ & Hiff).
  rewrite setmember1d_value in Hf by done. injection Hf as <-.
  unfold beq0 in Hci. rewrite list_lookup_fmap in Hci.
  destruct Hiff as [_ Hiff]. rewrite Hiff in Hci; [done|].
  exists j. split; [done|]. by apply lookup_app_l_Some.
Qed.

Lemma setdiff1d_stable_values_witness :
  ∃ r, @setdiff1d mergesort [6; 5; 6; 7; 1; 7] [2; 1; 5] = Ok r ∧
       r `sublist_of` [6; 5; 6; 7; 1; 7] ∧
       (∀ x, x ∈ r ↔ x ∈ [6; 5; 6; 7; 1; 7] ∧ x ∉ [2; 1; 5]) ∧
       NoDup r.
Proof.
  apply (setdiff1d_stable_values mergesort [6; 5; 6; 7; 1; 7] [2; 1; 5]).
  - exact mergesort_stable.
  - repeat constructor; unfold int64, int_min, int_max; lia.
  - done.
Defined.

Lemma setdiff1d_subsequence_keeps_aux
    (sorter : scipy.ArgSort) (a b : list Z) :
  Forall int64 (a ++ b) → a ++ b ≠ [] →
  ∃ r, setdiff1d a b = Ok r ∧
       r `sublist_of` a ∧
       (∀ x, x ∈ a → x ∉ b → x ∈ r).
Proof.
  intros Hr Hne. eexists. split; [by apply setdiff1d_value|].
  split; [apply select_sublist|]. intros x. by apply setdiff1d_keeps.
Qed.

(** Whatever the argsort, for arrays that are not both empty
    [setdiff1d(a, b)] is a subsequence of [a], in [a]'s order, that keeps
    every value of [a] that is not in [b]. *)
Theorem setdiff1d_subsequence_keeps
    (sorter : scipy.ArgSort) (a b : list Z) :
  Forall int64 (a ++ b) → a ++ b ≠ [] →
  ∃ r, setdiff1d a b = Ok r ∧
       r `sublist_of` a ∧
       (∀ x, x ∈ a → x ∉ b → x ∈ r).
Proof. apply setdiff1d_subsequence_keeps_aux. Qed.

Lemma setdiff1d_subsequence_keeps_witness :
  ∃ r, @setdiff1d reversing [6; 5; 4; 7; 1; 2] [2; 4; 3; 3; 2; 1; 5] = Ok r ∧
       r `sublist_of` [6; 5; 4; 7; 1; 2] ∧
       (∀ x, x ∈ [6; 5; 4; 7; 1; 2] → x ∉ [2; 4; 3; 3; 2; 1; 5] → x ∈ r).
Proof.
  apply (setdiff1d_subsequence_keeps reversing
           [6; 5; 4; 7; 1; 2] [2; 4; 3; 3; 2; 1; 5]); [|done].
  repeat constructor; unfold int64, int_min, int_max; lia.
Defined.

(** Whatever the argsort, taking away the empty array from a non-empty
    array without duplicates returns the array unchanged. *)
Theorem setdiff1d_empty_second (sorter : scipy.ArgSort) (a : list Z) :
  Forall int64 a → NoDup a → a ≠ [] → setdiff1d a [] = Ok a.
Proof.
  intros Hr Hnd Hne.
  assert (Forall int64 (a ++ [])) as Hr' by (by rewrite app_nil_r).
  assert (a ++ [] ≠ []) as Hne' by (by rewrite app_nil_r).
  destruct (setdiff1d_subsequence_keeps_aux sorter a [] Hr' Hne')
    as (r & Hrv & Hsub & Hkeep).
  rewrite Hrv. f_equal. apply sublist_all_elem_of; [done..|].
  intros x Hx. apply Hkeep; [done|]. apply not_elem_of_nil.
Qed.

Lemma setdiff1d_empty_second_witness :
  @setdiff1d reversing [6; 5; 4] [] = Ok [6; 5; 4].
Proof.
  apply (setdiff1d_empty_second reversing [6; 5; 4]).
  - repeat constructor; unfold int64, int_min, int_max; lia.
  - apply (bool_decide_unpack _). vm_compute. exact I.
  - done.
Defined.

(** With an empty first argument and a non-empty second one
    [setmember1d] and [setdiff1d] return the empty array. *)
Theorem empty_first_argument (sorter : scipy.ArgSort) (b : list Z) :
  Forall int64 b → b ≠ [] →
  setmember1d [] b = Ok [] ∧ setdiff1d [] b = Ok [].
Proof.
  intros Hr Hne.
  split; [by apply setmember1d_nil_l|by apply setdiff1d_nil_l].
Qed.

Lemma empty_first_argument_witness :
  @setmember1d mergesort [] [2; 2] = Ok [] ∧
  @setdiff1d mergesort [] [2; 2] = Ok [].
Proof.
  apply (empty_first_argument mergesort [2; 2]); [|done].
  repeat constructor; unfold int64, int_min, int_max; lia.
Defined.
